(** * Player development and potential projection

    A shallow embedding of [potEstimator], [bootstrapPot] and [develop].

    Modelling conventions.
    - Overall ratings are integers ([Z]); a JavaScript value read from a
      ratings field that may be missing is a [num]: an integer, [undefined]
      or [NaN].
    - The regression formula is evaluated in exact rational arithmetic ([Q]);
      the source evaluates it in IEEE doubles.  Every theorem below about the
      regression branch holds for an arbitrary estimator value, so it does not
      depend on that idealisation.
    - Ratings objects live in a heap and are passed by reference; the
      sport-specific functions ([overrides.core.player.*]), the random source
      and the position list are fields of the [Overrides] interface.
    - Object property lookup ([coeffsByPos[pos]], [ratings.ovrs[pos]]) is
      lookup in a finite map of the object's own keys. *)

From Stdlib Require Import ZArith QArith Qround Lia List.
From Stdlib Require Import Lqa.
From stdpp Require Import base option list gmap strings sorting.

Local Open Scope string_scope.
Local Open Scope list_scope.
Local Open Scope Z_scope.

(** ** JavaScript numbers that flow through overall and potential fields *)

Inductive num : Type :=
  | Num (z : Z)
  | Undefined
  | NaN.

#[global] Instance num_eq_dec : EqDecision num.
Proof. solve_decision. Defined.

(** [x > m] for an integer [x] and a field value [m]: any comparison with
    [undefined] or [NaN] is false. *)
Definition num_gt (x : Z) (m : num) : bool :=
  match m with
  | Num z => z <? x
  | _ => false
  end.

(** The order lodash's [compareAscending] puts on these values: numbers by
    value, then [undefined], then [NaN]. *)
Definition num_leb (a b : num) : bool :=
  match a, b with
  | Num x, Num y => x <=? y
  | Num _, _ => true
  | Undefined, Num _ => false
  | Undefined, _ => true
  | NaN, NaN => true
  | NaN, _ => false
  end.

Definition num_le (a b : num) : Prop := num_leb a b = true.

#[global] Instance num_le_dec : RelDecision num_le.
Proof. intros a b. unfold num_le. apply _. Defined.

(** [orderBy(xs)] with the default iteratee and ascending order. *)
Definition orderBy (xs : list num) : list num := merge_sort num_le xs.

(** [range(n)] *)
Definition range (n : Z) : list Z := map Z.of_nat (seq 0 (Z.to_nat n)).

(** [Math.round] and [Math.floor] on exact rationals. *)
Definition Math_round (q : Q) : Z := Qfloor (q + (1 # 2)).
Definition Math_floor (q : Q) : Z := Qfloor q.

(** Modelled from the spec: [helpers.bound(x, min, max)] lives in another
    module; the spec says the rounded value is clamped to the interval. *)
Definition bound (x lo hi : Z) : Z :=
  if x <? lo then lo else if hi <? x then hi else x.

(** ** The regression table *)

Record Coeffs : Type := {
  intercept : Q;
  c_age : Q;
  c_ovr : Q;
  interaction : Q
}.

Definition mkCoeffs (i a o x : Q) : Coeffs :=
  {| intercept := i; c_age := a; c_ovr := o; interaction := x |}.

Definition coeffsByPos : gmap string Coeffs :=
  list_to_map
    [ ("CB", mkCoeffs 41.22339 (-1.55671) 1.73043 (-0.02711));
      ("DL", mkCoeffs 50.39196 (-1.91082) 2.00579 (-0.03759));
      ("K",  mkCoeffs 35.997   (-1.349)   1.834   (-0.032));
      ("KR", mkCoeffs 39.62046 (-1.47839) 1.67194 (-0.02539));
      ("LB", mkCoeffs 36.72401 (-1.37224) 1.91346 (-0.03444));
      ("OL", mkCoeffs 38.22024 (-1.44549) 2.13113 (-0.04226));
      ("P",  mkCoeffs 36.09308 (-1.3511)  1.90802 (-0.03557));
      ("PR", mkCoeffs 38.16013 (-1.42061) 1.93835 (-0.03559));
      ("QB", mkCoeffs 47.34247 (-1.78499) 2.12059 (-0.04236));
      ("RB", mkCoeffs 18.70945 (-0.69679) 2.40819 (-0.05307));
      ("S",  mkCoeffs 42.84427 (-1.62036) 1.99803 (-0.03686));
      ("TE", mkCoeffs 28.15031 (-1.05288) 2.27735 (-0.04792));
      ("WR", mkCoeffs 46.83016 (-1.75311) 1.76216 (-0.02886)) ]%Q.

Inductive error : Type :=
  | InvalidPosition (pos : string)   (* Invalid position ... in potEstimator *)
  | PosRequired                      (* pos is required for potEstimator *)
  | ShouldNeverHappen                (* Should never happen *)
  | TypeError.                       (* property read on undefined *)

(** [process.env.SPORT] *)
Inductive Sport : Type := basketball | football | otherSport.

#[global] Instance Sport_eq_dec : EqDecision Sport.
Proof. solve_decision. Defined.

(** The estimator's result is a double: [Some q], or [None] for [NaN]. *)
Definition football_potEstimator (ovr : num) (age : Z) (pos : string)
  : error + option Q :=
  match coeffsByPos !! pos with
  | None => inl (InvalidPosition pos)
  | Some coeffs =>
      inr match ovr with
          | Num o =>
              Some (intercept coeffs
                    + c_age coeffs * inject_Z age
                    + c_ovr coeffs * inject_Z o
                    + interaction coeffs * inject_Z age * inject_Z o)%Q
          | _ => None
          end
  end.

Definition potEstimator (SPORT : Sport)
  : option (num -> Z -> string -> error + option Q) :=
  match SPORT with
  | football => Some football_potEstimator
  | _ => None
  end.

(** ** Ratings snapshots, players and the heap *)

(** A reference to a ratings object is an index into the heap. *)
Definition loc : Type := nat.

Record Draft : Type := {
  draft_ovr : num;
  draft_pot : num;
  draft_skills : list string
}.

(** The player object [p] of [develop].  [p_pos] is [Some s] exactly when
    [p.hasOwnProperty("pos") && typeof p.pos === "string"] holds, with [s] the
    string; [p_ratings] is [p.ratings], an array of references to the rows. *)
Record Player : Type := {
  born_loc : string;
  born_year : Z;
  draft : Draft;
  p_pos : option string;
  p_ratings : list loc;
  tid : Z;
  weight : Z
}.

Inductive outcome (T : Type) : Type :=
  | Ok (v : T)
  | Throw (e : error).
Arguments Ok {T} v.
Arguments Throw {T} e.

Section Store.

(** [G]: states of the random source.  [Attrs]: the sport-specific
    attributes of a ratings row other than the ones this module reads. *)
Context {G Attrs : Type}.

(** [MinimalPlayerRatings] *)
Record Ratings : Type := {
  season : Z;
  hgt : Z;
  stre : Z;
  attrs : Attrs;
  ovr : num;
  pot : num;
  ovrs : gmap string Z;
  pots : gmap string num;
  pos : string;
  skills : list string
}.

Definition set_ovr (v : num) (r : Ratings) : Ratings :=
  {| season := season r; hgt := hgt r; stre := stre r; attrs := attrs r;
     ovr := v; pot := pot r; ovrs := ovrs r; pots := pots r;
     pos := pos r; skills := skills r |}.

Definition set_pot (v : num) (r : Ratings) : Ratings :=
  {| season := season r; hgt := hgt r; stre := stre r; attrs := attrs r;
     ovr := ovr r; pot := v; ovrs := ovrs r; pots := pots r;
     pos := pos r; skills := skills r |}.

Definition set_ovrs (v : gmap string Z) (r : Ratings) : Ratings :=
  {| season := season r; hgt := hgt r; stre := stre r; attrs := attrs r;
     ovr := ovr r; pot := pot r; ovrs := v; pots := pots r;
     pos := pos r; skills := skills r |}.

Definition set_pots (v : gmap string num) (r : Ratings) : Ratings :=
  {| season := season r; hgt := hgt r; stre := stre r; attrs := attrs r;
     ovr := ovr r; pot := pot r; ovrs := ovrs r; pots := v;
     pos := pos r; skills := skills r |}.

Definition set_pos (v : string) (r : Ratings) : Ratings :=
  {| season := season r; hgt := hgt r; stre := stre r; attrs := attrs r;
     ovr := ovr r; pot := pot r; ovrs := ovrs r; pots := pots r;
     pos := v; skills := skills r |}.

Definition set_skills (v : list string) (r : Ratings) : Ratings :=
  {| season := season r; hgt := hgt r; stre := stre r; attrs := attrs r;
     ovr := ovr r; pot := pot r; ovrs := ovrs r; pots := pots r;
     pos := pos r; skills := v |}.

(** [ratings.ovrs[pos]] and [ratings.pots[pos]]: a missing key reads as
    [undefined]. *)
Definition ovrs_at (r : Ratings) (p : string) : num :=
  match ovrs r !! p with
  | Some z => Num z
  | None => Undefined
  end.

Definition pots_at (r : Ratings) (p : string) : num :=
  match pots r !! p with
  | Some v => v
  | None => Undefined
  end.

(** Truthiness of the optional [pos] argument: [undefined] and the empty
    string are falsy. *)
Definition truthy (pos : option string) : bool :=
  match pos with
  | Some p => negb (String.eqb p EmptyString)
  | None => false
  end.

(** [pos ? ratings.ovrs[pos] : ratings.ovr] *)
Definition current_ovr (r : Ratings) (pos : option string) : num :=
  match pos with
  | Some p => if truthy pos then ovrs_at r p else ovr r
  | None => ovr r
  end.

Record world : Type := {
  rng : G;
  heap : list Ratings
}.

(** Computations that read and write the heap, draw from the random source
    and may throw; the world at the point of the throw is kept. *)
Definition M (T : Type) : Type := world -> outcome T * world.

Definition ret {T} (v : T) : M T := fun w => (Ok v, w).

Definition throw {T} (e : error) : M T := fun w => (Throw e, w).

Definition bind {T U} (c : M T) (k : T -> M U) : M U :=
  fun w =>
    match c w with
    | (Ok v, w') => k v w'
    | (Throw e, w') => (Throw e, w')
    end.

Definition readRatings (r : loc) : M Ratings :=
  fun w =>
    match heap w !! r with
    | Some v => (Ok v, w)
    | None => (Throw TypeError, w)
    end.

Definition writeRatings (r : loc) (v : Ratings) : M unit :=
  fun w => (Ok tt, {| rng := rng w; heap := <[r := v]> (heap w) |}).

Definition modifyRatings (r : loc) (f : Ratings -> Ratings) : M unit :=
  bind (readRatings r) (fun v => writeRatings r (f v)).

(** Modelled from the spec: [helpers.deepCopy] lives in another module; the
    spec asks for value semantics with no shared references after the copy,
    so the copy is a fresh object holding the same value. *)
Definition deepCopy (r : loc) : M loc :=
  fun w =>
    match heap w !! r with
    | Some v => (Ok (length (heap w)),
                 {| rng := rng w; heap := heap w ++ [v] |})
    | None => (Throw TypeError, w)
    end.

(** A call that only consumes randomness. *)
Definition draw {T} (f : G -> T * G) : M T :=
  fun w => let (v, g) := f (rng w) in (Ok v, {| rng := g; heap := heap w |}).

Fixpoint mapM {T U} (f : T -> M U) (l : list T) : M (list U) :=
  match l with
  | [] => ret []
  | x :: l' =>
      bind (f x) (fun y => bind (mapM f l') (fun ys => ret (y :: ys)))
  end.

Fixpoint foldM {T U} (f : U -> T -> M U) (l : list T) (acc : U) : M U :=
  match l with
  | [] => ret acc
  | x :: l' => bind (f acc x) (fun acc' => foldM f l' acc')
  end.

(** The sport-specific collaborators ([overrides.core.player],
    [overrides.common.constants]), [random.randInt], the [skills] import and
    the [PLAYER.UNDRAFTED] constant.  Functions that draw random numbers
    thread the random source; [developSeason], which mutates the ratings
    object it is given, returns the new value of that object. *)
Class Overrides : Type := {
  developSeason : Ratings -> Z -> option Q -> G -> Ratings * G;
  player_ovr : Ratings -> option string -> Z;
  player_pos : Ratings -> string;
  genWeight : Z -> Z -> G -> Z * G;
  POSITIONS : list string;
  randInt : Z -> Z -> G -> Z * G;
  skills_of : Ratings -> list string;
  PLAYER_UNDRAFTED : Z
}.

End Store.

Arguments Ratings : clear implicits.
Arguments world : clear implicits.
Arguments Overrides : clear implicits.

Notation "'let!' x ':=' c 'in' k" := (bind c (fun x => k))
  (at level 10, x pattern, c at level 100, k at level 200).

Section Develop.

Context {G Attrs : Type} {Ov : Overrides G Attrs}.
Variable SPORT : Sport.

Abbreviation Ratings := (Ratings Attrs).
Abbreviation M := (@M G Attrs).

(** ** bootstrapPot *)

Definition NUM_SIMULATIONS : Z := 20.

(** [overrides.core.player.developSeason!(ratings, age, coachingRank)] on
    the object at [r]. *)
Definition developSeasonAt (r : loc) (age : Z) (coachingRank : option Q)
  : M unit :=
  let! v := readRatings r in
  let! v' := draw (developSeason v age coachingRank) in
  writeRatings r v'.

(** The [for (ageTemp = age + 1; ageTemp < 30; ageTemp++)] loop of one
    trial, with [n] iterations left. *)
Fixpoint rollout (n : nat) (copiedRatings : loc) (ageTemp : Z)
    (pos : option string) (maxOvr : num) : M num :=
  match n with
  | O => ret maxOvr
  | S n' =>
      let! _ := developSeasonAt copiedRatings ageTemp None in
      let! c := readRatings copiedRatings in
      let currentOvr := player_ovr c pos in
      rollout n' copiedRatings (ageTemp + 1) pos
        (if num_gt currentOvr maxOvr then Num currentOvr else maxOvr)
  end.

(** One element of [range(NUM_SIMULATIONS).map(() => ...)]. *)
Definition trial (ratings : loc) (age : Z) (pos : option string) : M num :=
  let! copiedRatings := deepCopy ratings in
  let! r := readRatings ratings in
  let maxOvr := current_ovr r pos in
  rollout (Z.to_nat (30 - (age + 1))) copiedRatings (age + 1) pos maxOvr.

(** [Math.floor(0.75 * NUM_SIMULATIONS)] *)
Definition percentile_index : nat :=
  Z.to_nat (Math_floor (0.75 * inject_Z NUM_SIMULATIONS)).

(** [xs[i]]: out of range reads as [undefined]. *)
Definition at_index (xs : list num) (i : nat) : num :=
  match xs !! i with
  | Some v => v
  | None => Undefined
  end.

(** [ovr > pot] with [pot] a double. *)
Definition exceeds (ovr : num) (pot : option Q) : bool :=
  match ovr, pot with
  | Num o, Some q => negb (Qle_bool (inject_Z o) q)
  | _, _ => false
  end.

(** [helpers.bound(Math.round(pot), 0, 100)]; [NaN] passes through every
    comparison of the clamp. *)
Definition round_and_bound (pot : option Q) : num :=
  match pot with
  | Some q => Num (bound (Math_round q) 0 100)
  | None => NaN
  end.

Definition bootstrapPot (ratings : loc) (age : Z) (pos : option string)
  : M num :=
  if 29 <=? age then
    let! r := readRatings ratings in
    ret (current_ovr r pos)
  else
    match potEstimator SPORT with
    | Some estimator =>
        match pos with
        | None => throw PosRequired
        | Some p =>
            let! r := readRatings ratings in
            let ovr := ovrs_at r p in
            match estimator ovr age p with
            | inl e => throw e
            | inr pot0 =>
                let! jitter := draw (randInt (-2) 2) in
                let pot :=
                  option_map (fun q => q + inject_Z jitter)%Q pot0 in
                if exceeds ovr pot then ret ovr
                else ret (round_and_bound pot)
            end
        end
    | None =>
        let! maxOvrs :=
          mapM (fun _ => trial ratings age pos) (range NUM_SIMULATIONS) in
        ret (at_index (orderBy maxOvrs) percentile_index)
    end.

(** ** develop *)

(** The weight update of one loop iteration. *)
Definition adjustWeight (oldWeight newWeight : Z) : Z :=
  if 10 <? newWeight - oldWeight then oldWeight + 10
  else if newWeight - oldWeight <? -10 then oldWeight - 10
  else newWeight.

(** One iteration of the [for (let i = 0; i < years; i++)] loop; the loop
    state is the local [age] and the field [p.weight]. *)
Definition season_step (ratings : loc) (years : Z) (newPlayer : bool)
    (coachingRank : Q) (st : Z * Z) : M (Z * Z) :=
  let '(age, weight) := st in
  let age := if newPlayer || (1 <? years) then age + 1 else age in
  let! _ := developSeasonAt ratings age (Some coachingRank) in
  match SPORT with
  | football =>
      let! r := readRatings ratings in
      let! newWeight := draw (genWeight (hgt r) (stre r)) in
      ret (age, adjustWeight weight newWeight)
  | _ => ret (age, weight)
  end.

Fixpoint season_loop (n : nat) (ratings : loc) (years : Z)
    (newPlayer : bool) (coachingRank : Q) (st : Z * Z) : M (Z * Z) :=
  match n with
  | O => ret st
  | S n' =>
      let! st' := season_step ratings years newPlayer coachingRank st in
      season_loop n' ratings years newPlayer coachingRank st'
  end.

Definition bannedPositions : list string := ["KR"; "PR"].

(** [bannedPositions.includes(pos2)] *)
Definition includes (l : list string) (s : string) : bool :=
  existsb (String.eqb s) l.

(** [x > maxOvr], where [maxOvr] starts as [-Infinity] ([None]). *)
Definition above (x : Z) (maxOvr : option Z) : bool :=
  match maxOvr with
  | Some m => m <? x
  | None => true
  end.

(** The callback of the first [POSITIONS.reduce]: the accumulator [ovrs]
    together with the captured locals [pos] and [maxOvr]. *)
Definition ovrs_step (r : Ratings)
    (acc : gmap string Z * option string * option Z) (pos2 : string)
  : gmap string Z * option string * option Z :=
  let '(ovrs, pos, maxOvr) := acc in
  let o := player_ovr r (Some pos2) in
  let ovrs := <[pos2 := o]> ovrs in
  if negb (includes bannedPositions pos2) && above o maxOvr
  then (ovrs, Some pos2, Some o)
  else (ovrs, pos, maxOvr).

(** The callback of the second [POSITIONS.reduce]. *)
Definition pots_step (ratings : loc) (age : Z) (pots : gmap string num)
    (pos2 : string) : M (gmap string num) :=
  let! v := bootstrapPot ratings age (Some pos2) in
  ret (<[pos2 := v]> pots).

Definition override_or (p : Player) (computed : string) : string :=
  match p_pos p with
  | Some s => s
  | None => computed
  end.

(** The [if (process.env.SPORT === "basketball")] branch after the loop. *)
Definition finalize_single (p : Player) (ratings : loc) (age : Z)
    (skipPot : bool) : M unit :=
  let! _ := modifyRatings ratings
              (fun r => set_ovr (Num (player_ovr r None)) r) in
  let! _ := if skipPot then ret tt
            else let! v := bootstrapPot ratings age None in
                 modifyRatings ratings (set_pot v) in
  modifyRatings ratings (fun r => set_pos (override_or p (player_pos r)) r).

(** The [else] branch after the loop. *)
Definition finalize_multi (p : Player) (ratings : loc) (age : Z)
    (skipPot : bool) : M unit :=
  let! r := readRatings ratings in
  let '(ovrs, pos, _) :=
    fold_left (ovrs_step r) POSITIONS (∅, None, None) in
  let! _ := modifyRatings ratings (set_ovrs ovrs) in
  let! _ := if skipPot then ret tt
            else let! pots := foldM (pots_step ratings age) POSITIONS ∅ in
                 modifyRatings ratings (set_pots pots) in
  match pos with
  | None => throw ShouldNeverHappen
  | Some pos =>
      let! _ := modifyRatings ratings (fun r => set_ovr (ovrs_at r pos) r) in
      let! _ := modifyRatings ratings (fun r => set_pot (pots_at r pos) r) in
      modifyRatings ratings (set_pos (override_or p pos))
  end.

(** Everything after the loop up to [ratings.pos = ...]. *)
Definition finalize (p : Player) (ratings : loc) (age : Z) (skipPot : bool)
  : M unit :=
  match SPORT with
  | basketball => finalize_single p ratings age skipPot
  | _ => finalize_multi p ratings age skipPot
  end.

(** [develop(p, years, newPlayer, coachingRank, skipPot)]; the result is the
    player object after the call.  When the call throws, the world at the
    throw is kept and the fields of [p] are not observed. *)
Definition develop (p : Player) (years : Z) (newPlayer : bool)
    (coachingRank : Q) (skipPot : bool) : M Player :=
  match last (p_ratings p) with
  | None => throw TypeError
  | Some ratings =>
      let! r0 := readRatings ratings in
      let age := season r0 - born_year p in
      let! st :=
        season_loop (Z.to_nat years) ratings years newPlayer coachingRank
          (age, weight p) in
      let '(age, weight) := st in
      let! _ := finalize p ratings age skipPot in
      let! _ := modifyRatings ratings (fun r => set_skills (skills_of r) r) in
      let! r := readRatings ratings in
      let draft :=
        if tid p =? PLAYER_UNDRAFTED then
          {| draft_ovr := ovr r;
             draft_pot := if skipPot then draft_pot (draft p) else pot r;
             draft_skills := skills r |}
        else draft p in
      ret {| born_loc := born_loc p;
             born_year := if newPlayer then born_year p - years
                          else born_year p;
             draft := draft;
             p_pos := p_pos p;
             p_ratings := p_ratings p;
             tid := tid p;
             weight := weight |}
  end.

End Develop.

(** ** Value-level readings used to state the results

    A trial only ever touches its private copy, so what it computes is a
    function of the value of the snapshot and of the random source.  These
    are the loop of [rollout] and the map of [bootstrapPot] on values. *)

Section Values.

Context {G Attrs : Type} {Ov : Overrides G Attrs}.

Abbreviation RatingsV := (Ratings Attrs).

Fixpoint rollout_val (n : nat) (c : RatingsV) (ageTemp : Z)
    (pos : option string) (maxOvr : num) (g : G) : num * RatingsV * G :=
  match n with
  | O => (maxOvr, c, g)
  | S n' =>
      let (c', g') := developSeason c ageTemp None g in
      let currentOvr := player_ovr c' pos in
      rollout_val n' c' (ageTemp + 1) pos
        (if num_gt currentOvr maxOvr then Num currentOvr else maxOvr) g'
  end.

Definition trial_val (r : RatingsV) (age : Z) (pos : option string) (g : G)
  : num * RatingsV * G :=
  rollout_val (Z.to_nat (30 - (age + 1))) r (age + 1) pos
    (current_ovr r pos) g.

(** [k] consecutive trials from the same snapshot value: the maxima, the
    final values of the private copies, and the random source afterwards. *)
Fixpoint trials_val (k : nat) (r : RatingsV) (age : Z)
    (pos : option string) (g : G) : list num * list RatingsV * G :=
  match k with
  | O => ([], [], g)
  | S k' =>
      let '(m, c, g1) := trial_val r age pos g in
      let '(ms, cs, g2) := trials_val k' r age pos g1 in
      (m :: ms, c :: cs, g2)
  end.

Variable SPORT : Sport.

(** The body of [develop]'s loop on values, at the age [a] that is passed
    to [developSeason]: the snapshot, [p.weight] and the random source. *)
Definition season_val (coachingRank : Q) (st : RatingsV * Z * G) (a : Z)
  : RatingsV * Z * G :=
  let '(v, weight, g) := st in
  let (v', g1) := developSeason v a (Some coachingRank) g in
  match SPORT with
  | football =>
      let (newWeight, g2) := genWeight (hgt v') (stre v') g1 in
      (v', adjustWeight weight newWeight, g2)
  | _ => (v', weight, g1)
  end.

Definition seasons_val (coachingRank : Q) (ages : list Z)
    (st : RatingsV * Z * G) : RatingsV * Z * G :=
  fold_left (season_val coachingRank) ages st.

(** The successive values of the local [age] over [n] iterations, where
    [bump] is the test [newPlayer || years > 1]. *)
Fixpoint loop_ages (n : nat) (age : Z) (bump : bool) : list Z :=
  match n with
  | O => []
  | S n' =>
      let age' := if bump then age + 1 else age in
      age' :: loop_ages n' age' bump
  end.

(** A position that may be chosen as the main position. *)
Definition eligible (q : string) : Prop := includes bannedPositions q = false.

(** The state of the first reduce after the positions [done]: [ovrs] has
    exactly the positions seen; the selection is the first eligible
    position whose overall is maximal among the eligible ones seen. *)
Definition ovrs_inv (v : RatingsV) (done : list string)
    (acc : gmap string Z * option string * option Z) : Prop :=
  let '(ovrs, pos, maxOvr) := acc in
  (forall k, ovrs !! k
             = if decide (k ∈ done) then Some (player_ovr v (Some k))
               else None)
  /\ match pos, maxOvr with
     | None, None => forall q, q ∈ done -> ~ eligible q
     | Some s, Some mx =>
         mx = player_ovr v (Some s) /\ eligible s
         /\ exists pre post, done = pre ++ s :: post
            /\ (forall q, q ∈ pre -> eligible q ->
                          player_ovr v (Some q) < mx)
            /\ (forall q, q ∈ post -> eligible q ->
                          player_ovr v (Some q) <= mx)
     | _, _ => False
     end.

(** [m] is a number not below [o]; [m] is a number in [0,100]. *)
Definition at_least (o : Z) (m : num) : Prop := exists x, m = Num x /\ o <= x.


(** [val] was returned by a call [bootstrapPot(ratings, age, k)] made while
    the snapshot had the value [v]. *)
Definition pot_of_call (r : loc) (v : RatingsV) (age : Z) (k : string)
    (val : num) : Prop :=
  exists w1 w2 : world G Attrs, heap w1 !! r = Some v
                /\ bootstrapPot SPORT r age (Some k) w1 = (Ok val, w2).

End Values.

(** ** A concrete strategy for examples

    One attribute that every season raises by 10; the overall at a position
    is the attribute plus a position offset, clamped to [0,100].  The random
    source is a counter of the draws made so far. *)

Module Demo.

Definition mkRatings (a : Z) (o p : num) (os : gmap string Z)
    (ps : gmap string num) (ps0 : string) : Ratings Z :=
  {| season := 2020; hgt := 50; stre := 50; attrs := a; ovr := o; pot := p;
     ovrs := os; pots := ps; pos := ps0; skills := [] |}.

Definition offset (pos : option string) : Z :=
  match pos with
  | Some "RB" => -1
  | Some "KR" => 5
  | _ => 0
  end.

#[export] Instance strategy : Overrides nat Z := {|
  developSeason r age coachingRank g :=
    ({| season := season r; hgt := hgt r; stre := stre r;
        attrs := attrs r + 10; ovr := ovr r; pot := pot r; ovrs := ovrs r;
        pots := pots r; pos := pos r; skills := skills r |}, S g);
  player_ovr r pos := bound (attrs r + offset pos) 0 100;
  player_pos r := "G";
  genWeight hgt stre g := (215, S g);
  POSITIONS := ["QB"; "RB"; "KR"; "PR"];
  randInt lo hi g := (lo + Z.of_nat g mod (hi - lo + 1), S g);
  skills_of r := [];
  PLAYER_UNDRAFTED := -2
|}.

(** A valid snapshot of a 20-year-old: overall 50, potential 55. *)
Definition snapshot : Ratings Z :=
  mkRatings 50 (Num 50) (Num 55)
    (list_to_map [("QB", 50); ("RB", 49); ("KR", 55); ("PR", 50)])
    (list_to_map [("QB", Num 55); ("RB", Num 54); ("KR", Num 60);
                  ("PR", Num 55)])
    "QB".

Definition w0 : world nat Z := {| rng := 0%nat; heap := [snapshot] |}.

Definition player (override : option string) : Player :=
  {| born_loc := "USA"; born_year := 2000;
     draft := {| draft_ovr := Num 50; draft_pot := Num 55;
                 draft_skills := [] |};
     p_pos := override; p_ratings := [0%nat]; tid := -2; weight := 200 |}.

End Demo.


(** ** League metadata: updateMetaNameRegion

    [idb.meta] and [g] live in other modules.  The [leagues] object store is
    read here with [get("leagues", key)] and written with [put("leagues", l)],
    without a key argument: it is a keyed store that holds its key inside the
    record.  It is modelled as a finite map from league ids to records, where
    [get] of an absent key gives [undefined] and [put] writes the record back
    under the key it was read from; [lid] is the value of [g.get("lid")],
    which the function reads twice and never assigns.  The fields of a league
    other than the two this function assigns are [league_rest]. *)

Section Meta.

Context {Rest : Type}.

Record League : Type := {
  teamName : string;
  teamRegion : string;
  league_rest : Rest
}.

(** The promise resolves, or rejects with the error naming the league id. *)
Inductive meta_outcome : Type :=
  | Resolved
  | NoLeagueFound (lid : Z).

Definition updateMetaNameRegion (lid : Z) (name region : string)
    (leagues : gmap Z League) : meta_outcome * gmap Z League :=
  match leagues !! lid with
  | None => (NoLeagueFound lid, leagues)
  | Some l =>
      (Resolved,
       <[lid := {| teamName := name; teamRegion := region;
                   league_rest := league_rest l |}]> leagues)
  end.

End Meta.

Arguments League : clear implicits.

(** ** Footprints

    What a computation may do to the heap when it is run on a live ratings
    object [r]. *)

Section Footprint.

Context {G Attrs : Type}.

(** [w'] has every object of [w], and every object other than [r] holds the
    value it held in [w]. *)
Definition only_touches (r : loc) (w w' : world G Attrs) : Prop :=
  (length (heap w) <= length (heap w'))%nat
  /\ forall r', r' <> r -> (r' < length (heap w))%nat ->
       heap w' !! r' = heap w !! r'.

(** Run from any world in which [r] is live, the computation [c] touches no
    object other than [r], leaves [r] live with a value that satisfies [I] if
    the value before did, and throws only errors that satisfy [E]. *)
Definition spec_at (r : loc) (I : Ratings Attrs -> Prop) (E : error -> Prop)
    {T} (c : M (G := G) (Attrs := Attrs) T) : Prop :=
  forall w v, heap w !! r = Some v ->
    only_touches r w (c w).2
    /\ (exists v', heap (c w).2 !! r = Some v' /\ (I v -> I v'))
    /\ (forall e, (c w).1 = Throw e -> E e).

(** [I] survives the assignments [develop] makes after the season loop. *)
Definition kept_by_assignments (I : Ratings Attrs -> Prop) : Prop :=
  forall v, I v ->
    (forall x, I (set_ovr x v)) /\ (forall x, I (set_pot x v))
    /\ (forall x, I (set_ovrs x v)) /\ (forall x, I (set_pots x v))
    /\ (forall x, I (set_pos x v)) /\ (forall x, I (set_skills x v)).

End Footprint.

(** Further examples: a player with two ratings rows, of which the second
    is the current one, and a strategy whose only position codes are the
    banned ones. *)

Module History.

Definition rookie_row : Ratings Z :=
  Demo.mkRatings 40 (Num 40) (Num 52) ∅ ∅ "QB".

Definition w2 : world nat Z :=
  {| rng := 0%nat; heap := [rookie_row; Demo.snapshot] |}.

Definition player : Player :=
  {| born_loc := "USA"; born_year := 2000;
     draft := {| draft_ovr := Num 40; draft_pot := Num 52;
                 draft_skills := [] |};
     p_pos := None; p_ratings := [0%nat; 1%nat]; tid := 7; weight := 200 |}.

(** A 30-year-old with the example snapshot as his only row. *)
Definition veteran : Player :=
  {| born_loc := "USA"; born_year := 1990;
     draft := {| draft_ovr := Num 45; draft_pot := Num 60;
                 draft_skills := [] |};
     p_pos := None; p_ratings := [0%nat]; tid := 7; weight := 200 |}.

#[export] Instance special_teams : Overrides nat Z := {|
  developSeason := developSeason (Overrides := Demo.strategy);
  player_ovr := player_ovr (Overrides := Demo.strategy);
  player_pos := player_pos (Overrides := Demo.strategy);
  genWeight := genWeight (Overrides := Demo.strategy);
  POSITIONS := ["KR"; "PR"];
  randInt := randInt (Overrides := Demo.strategy);
  skills_of := skills_of (Overrides := Demo.strategy);
  PLAYER_UNDRAFTED := -2
|}.

(** Two leagues of the metadata store. *)
Definition leagues : gmap Z (League nat) :=
  <[1 := {| teamName := "Hawks"; teamRegion := "Atlanta"; league_rest := 3%nat |}]>
    (<[2 := {| teamName := "Bulls"; teamRegion := "Chicago";
               league_rest := 5%nat |}]> ∅).

End History.

(** ** Properties *)

Section Properties.

Context {G Attrs : Type} {Ov : Overrides G Attrs}.
Variable SPORT : Sport.

Abbreviation RatingsP := (Ratings Attrs).
Abbreviation MP := (@M G Attrs).
Abbreviation worldP := (world G Attrs).

Implicit Types (w : worldP) (r c : loc) (v : RatingsP) (g : G)
  (h : list RatingsP) (age : Z) (pos : option string) (m : num).

(** *** The monad *)

Lemma bind_ok {T U} (c : MP T) (k : T -> MP U) w x w' :
  c w = (Ok x, w') -> bind c k w = k x w'.
Proof. unfold bind. now intros ->. Qed.

Lemma bind_throw {T U} (c : MP T) (k : T -> MP U) w e w' :
  c w = (Throw e, w') -> bind c k w = (Throw e, w').
Proof. unfold bind. now intros ->. Qed.

Lemma readRatings_ok r v w :
  heap w !! r = Some v -> readRatings r w = (Ok v, w).
Proof. unfold readRatings. now intros ->. Qed.

Lemma readRatings_none r w :
  heap w !! r = None -> readRatings r w = (Throw TypeError, w).
Proof. unfold readRatings. now intros ->. Qed.

Lemma modifyRatings_ok r f v w :
  heap w !! r = Some v ->
  modifyRatings r f w
  = (Ok tt, {| rng := rng w; heap := <[r := f v]> (heap w) |}).
Proof.
  intros Hr. unfold modifyRatings.
  now rewrite (bind_ok _ _ _ _ _ (readRatings_ok _ _ _ Hr)).
Qed.

Lemma lookup_snoc_last h v : (h ++ [v]) !! length h = Some v.
Proof. rewrite lookup_app_r by lia. now rewrite Nat.sub_diag. Qed.

Lemma insert_snoc_last h v v' : <[length h := v']> (h ++ [v]) = h ++ [v'].
Proof.
  rewrite insert_app_r_alt by lia. now rewrite Nat.sub_diag.
Qed.

(** *** One trial runs on its private copy *)

Lemma developSeasonAt_snoc h v age cr g :
  developSeasonAt (length h) age cr {| rng := g; heap := h ++ [v] |}
  = (Ok tt, {| rng := snd (developSeason v age cr g);
               heap := h ++ [fst (developSeason v age cr g)] |}).
Proof.
  unfold developSeasonAt.
  rewrite (bind_ok _ _ _ v {| rng := g; heap := h ++ [v] |})
    by (apply readRatings_ok, lookup_snoc_last).
  unfold bind, draw, writeRatings; simpl.
  destruct (developSeason v age cr g) as [v' g']; simpl.
  now rewrite insert_snoc_last.
Qed.

Lemma rollout_snoc n : forall h v ageTemp pos m g,
  rollout n (length h) ageTemp pos m {| rng := g; heap := h ++ [v] |}
  = let '(m', v', g') := rollout_val n v ageTemp pos m g in
    (Ok m', {| rng := g'; heap := h ++ [v'] |}).
Proof.
  induction n as [|n IH]; intros h v ageTemp pos m g; simpl.
  - reflexivity.
  - rewrite (bind_ok _ _ _ _ _ (developSeasonAt_snoc h v ageTemp None g)).
    destruct (developSeason v ageTemp None g) as [v' g'] eqn:E; simpl.
    rewrite (bind_ok _ _ _ v' {| rng := g'; heap := h ++ [v'] |})
      by (apply readRatings_ok, lookup_snoc_last).
    apply IH.
Qed.

Lemma trial_ok r v age pos g h :
  h !! r = Some v ->
  trial r age pos {| rng := g; heap := h |}
  = let '(m', v', g') := trial_val v age pos g in
    (Ok m', {| rng := g'; heap := h ++ [v'] |}).
Proof.
  intros Hr. unfold trial, trial_val.
  assert (Hc : deepCopy r {| rng := g; heap := h |}
               = (Ok (length h), {| rng := g; heap := h ++ [v] |})).
  { unfold deepCopy; simpl. now rewrite Hr. }
  rewrite (bind_ok _ _ _ _ _ Hc).
  rewrite (bind_ok _ _ _ v {| rng := g; heap := h ++ [v] |}).
  - apply rollout_snoc.
  - apply readRatings_ok; simpl. rewrite lookup_app_l; [exact Hr|].
    now apply lookup_lt_Some in Hr.
Qed.

Lemma trial_dangling r age pos w :
  heap w !! r = None -> trial r age pos w = (Throw TypeError, w).
Proof.
  intros Hr. unfold trial. apply bind_throw. unfold deepCopy. now rewrite Hr.
Qed.

Lemma trials_ok {T} (l : list T) : forall r v age pos g h,
  h !! r = Some v ->
  mapM (fun _ => trial r age pos) l {| rng := g; heap := h |}
  = let '(ms, cs, g') := trials_val (length l) v age pos g in
    (Ok ms, {| rng := g'; heap := h ++ cs |}).
Proof.
  induction l as [|x l IH]; intros r v age pos g h Hr; simpl.
  - unfold ret. now rewrite app_nil_r.
  - pose proof (trial_ok r v age pos g h Hr) as Ht.
    destruct (trial_val v age pos g) as [[m c] g1].
    rewrite (bind_ok _ _ _ _ _ Ht).
    assert (Hr' : (h ++ [c]) !! r = Some v).
    { rewrite lookup_app_l; [exact Hr|]. now apply lookup_lt_Some in Hr. }
    specialize (IH r v age pos g1 (h ++ [c]) Hr').
    destruct (trials_val (length l) v age pos g1) as [[ms cs] g2].
    rewrite (bind_ok _ _ _ _ _ IH). unfold ret.
    now rewrite <- app_assoc.
Qed.

Lemma trials_val_length k : forall v age pos g,
  length (trials_val k v age pos g).1.1 = k
  /\ length (trials_val k v age pos g).1.2 = k.
Proof.
  induction k as [|k IH]; intros v age pos g; simpl; [easy|].
  destruct (trial_val v age pos g) as [[m c] g1].
  specialize (IH v age pos g1).
  destruct (trials_val k v age pos g1) as [[ms cs] g2]; simpl in *.
  lia.
Qed.

Lemma rollout_val_inv (P : num -> Prop) pos :
  (forall m (c : RatingsP), P m -> num_gt (player_ovr c pos) m = true ->
               P (Num (player_ovr c pos))) ->
  forall n v ageTemp m g, P m -> P (rollout_val n v ageTemp pos m g).1.1.
Proof.
  intros Hstep. induction n as [|n IH]; intros v ageTemp m g Hm; simpl.
  - exact Hm.
  - destruct (developSeason v ageTemp None g) as [v' g'].
    apply IH. destruct (num_gt (player_ovr v' pos) m) eqn:E; [|exact Hm].
    now apply (Hstep m).
Qed.

Lemma trials_val_inv (P : num -> Prop) pos v age :
  (forall m (c : RatingsP), P m -> num_gt (player_ovr c pos) m = true ->
               P (Num (player_ovr c pos))) ->
  P (current_ovr v pos) ->
  forall k g, Forall P (trials_val k v age pos g).1.1.
Proof.
  intros Hstep Hseed. induction k as [|k IH]; intros g; simpl.
  - constructor.
  - pose proof (rollout_val_inv P pos Hstep (Z.to_nat (30 - (age + 1))) v
                  (age + 1) (current_ovr v pos) g Hseed) as Hm.
    fold (trial_val v age pos g) in Hm.
    destruct (trial_val v age pos g) as [[m c] g1].
    specialize (IH g1).
    destruct (trials_val k v age pos g1) as [[ms cs] g2]; simpl in *.
    now constructor.
Qed.

(** *** Sorting *)

Lemma num_le_total : Total num_le.
Proof.
  intros [x| |] [y| |]; unfold num_le; simpl; auto.
  destruct (Z.leb_spec x y), (Z.leb_spec y x); auto; lia.
Qed.

Lemma num_le_trans : Transitive num_le.
Proof.
  intros [x| |] [y| |] [z| |]; unfold num_le; simpl; auto; try discriminate.
  rewrite !Z.leb_le. lia.
Qed.

Lemma orderBy_perm (xs : list num) : Permutation (orderBy xs) xs.
Proof. apply merge_sort_Permutation. Qed.

Lemma orderBy_sorted (xs : list num) : StronglySorted num_le (orderBy xs).
Proof.
  apply StronglySorted_merge_sort; [apply num_le_trans | apply num_le_total].
Qed.

Lemma orderBy_length (xs : list num) : length (orderBy xs) = length xs.
Proof. apply Permutation_length, orderBy_perm. Qed.

Lemma at_index_Forall (P : num -> Prop) (xs : list num) (i : nat) :
  Forall P xs -> (i < length xs)%nat -> P (at_index (orderBy xs) i).
Proof.
  intros HP Hi. unfold at_index.
  rewrite <- orderBy_length in Hi.
  destruct (lookup_lt_is_Some_2 _ _ Hi) as [x Hx]. rewrite Hx.
  apply list_elem_of_lookup_2 in Hx.
  rewrite (orderBy_perm xs) in Hx.
  rewrite Forall_forall in HP. now apply HP.
Qed.

Lemma percentile_index_15 : percentile_index = 15%nat.
Proof. reflexivity. Qed.

(** *** The three branches of bootstrapPot *)

Lemma bootstrapPot_old r v age pos w :
  29 <= age -> heap w !! r = Some v ->
  bootstrapPot SPORT r age pos w = (Ok (current_ovr v pos), w).
Proof.
  intros Ha Hr. unfold bootstrapPot.
  destruct (Z.leb_spec 29 age); [|lia].
  now rewrite (bind_ok _ _ _ _ _ (readRatings_ok _ _ _ Hr)).
Qed.

Lemma bootstrapPot_simulated r v age pos w :
  potEstimator SPORT = None -> age < 29 -> heap w !! r = Some v ->
  bootstrapPot SPORT r age pos w
  = let '(ms, cs, g') :=
      trials_val (Z.to_nat NUM_SIMULATIONS) v age pos (rng w) in
    (Ok (at_index (orderBy ms) percentile_index),
     {| rng := g'; heap := heap w ++ cs |}).
Proof.
  intros He Ha Hr. unfold bootstrapPot.
  destruct (Z.leb_spec 29 age); [lia|]. rewrite He.
  destruct w as [g h]; cbn [rng heap] in *.
  pose proof (trials_ok (range NUM_SIMULATIONS) r v age pos g h Hr) as Ht.
  assert (Hlen : length (range NUM_SIMULATIONS) = Z.to_nat NUM_SIMULATIONS).
  { unfold range. now rewrite length_map, length_seq. }
  rewrite Hlen in Ht.
  destruct (trials_val (Z.to_nat NUM_SIMULATIONS) v age pos g)
    as [[ms cs] g'].
  now rewrite (bind_ok _ _ _ _ _ Ht).
Qed.

Lemma bootstrapPot_regression r v age p coeffs w :
  SPORT = football -> age < 29 -> heap w !! r = Some v ->
  coeffsByPos !! p = Some coeffs ->
  bootstrapPot SPORT r age (Some p) w
  = let ovr := ovrs_at v p in
    let pot0 := match football_potEstimator ovr age p with
                | inr q => q
                | inl _ => None
                end in
    let (jitter, g') := randInt (-2) 2 (rng w) in
    let pot := option_map (fun q => q + inject_Z jitter)%Q pot0 in
    (Ok (if exceeds ovr pot then ovr else round_and_bound pot),
     {| rng := g'; heap := heap w |}).
Proof.
  intros -> Ha Hr Hc. unfold bootstrapPot.
  destruct (Z.leb_spec 29 age); [lia|].
  change (potEstimator football) with (Some football_potEstimator).
  cbv iota beta.
  rewrite (bind_ok _ _ _ _ _ (readRatings_ok _ _ _ Hr)).
  unfold football_potEstimator. rewrite Hc. cbv zeta.
  unfold bind, draw.
  destruct (randInt (-2) 2 (rng w)) as [j g'].
  now destruct (exceeds _ _).
Qed.

Lemma bootstrapPot_invalid r v age p w :
  SPORT = football -> age < 29 -> heap w !! r = Some v ->
  coeffsByPos !! p = None ->
  bootstrapPot SPORT r age (Some p) w = (Throw (InvalidPosition p), w).
Proof.
  intros -> Ha Hr Hc. unfold bootstrapPot.
  destruct (Z.leb_spec 29 age); [lia|].
  change (potEstimator football) with (Some football_potEstimator).
  cbv iota beta.
  rewrite (bind_ok _ _ _ _ _ (readRatings_ok _ _ _ Hr)).
  unfold football_potEstimator. now rewrite Hc.
Qed.

Lemma bootstrapPot_no_pos r age w :
  SPORT = football -> age < 29 ->
  bootstrapPot SPORT r age None w = (Throw PosRequired, w).
Proof.
  intros -> Ha. unfold bootstrapPot.
  destruct (Z.leb_spec 29 age); [lia|]. reflexivity.
Qed.

Lemma bootstrapPot_dangling r age pos w :
  heap w !! r = None ->
  exists e, bootstrapPot SPORT r age pos w = (Throw e, w).
Proof.
  intros Hr. unfold bootstrapPot.
  destruct (29 <=? age).
  - eexists. apply bind_throw. now apply readRatings_none.
  - destruct (potEstimator SPORT) as [est|].
    + destruct pos as [p|]; [|now eexists].
      eexists. apply bind_throw. now apply readRatings_none.
    + eexists. apply bind_throw. unfold range, NUM_SIMULATIONS. simpl.
      apply bind_throw. now apply trial_dangling.
Qed.

(** The heap after any call: the heap before, followed by the private
    copies of the trials. *)
Lemma bootstrapPot_frame r age pos w :
  exists cs, heap (bootstrapPot SPORT r age pos w).2 = heap w ++ cs.
Proof.
  destruct (heap w !! r) as [v|] eqn:Hr.
  - destruct (Z.le_gt_cases 29 age) as [Ha|Ha].
    + rewrite (bootstrapPot_old r v age pos w Ha Hr). exists [].
      now rewrite app_nil_r.
    + destruct (potEstimator SPORT) as [est|] eqn:He.
      * assert (Hs : SPORT = football) by (now destruct SPORT).
        destruct pos as [p|].
        -- destruct (coeffsByPos !! p) as [coeffs|] eqn:Hc.
           ++ rewrite (bootstrapPot_regression r v age p coeffs w Hs) by
                (assumption || lia).
              cbv zeta. destruct (randInt (-2) 2 (rng w)) as [j g'].
              exists []. simpl. now rewrite app_nil_r.
           ++ rewrite (bootstrapPot_invalid r v age p w Hs) by
                (assumption || lia).
              exists []. simpl. now rewrite app_nil_r.
        -- rewrite (bootstrapPot_no_pos r age w Hs) by lia.
           exists []. simpl. now rewrite app_nil_r.
      * rewrite (bootstrapPot_simulated r v age pos w He) by
          (assumption || lia).
        destruct (trials_val _ v age pos (rng w)) as [[ms cs] g'].
        now exists cs.
  - destruct (bootstrapPot_dangling r age pos w Hr) as [e ->].
    exists []. simpl. now rewrite app_nil_r.
Qed.

(** *** The season loop of develop *)

Lemma last_nonempty_default {T} (l : list T) : forall a d d',
  List.last (a :: l) d = List.last (a :: l) d'.
Proof.
  induction l as [|b l IH]; intros a d d'; [reflexivity|].
  change (List.last (b :: l) d = List.last (b :: l) d'). apply IH.
Qed.

Lemma season_step_ok r v years newPlayer cr age weight g h :
  h !! r = Some v ->
  season_step SPORT r years newPlayer cr (age, weight)
    {| rng := g; heap := h |}
  = let age' := if newPlayer || (1 <? years) then age + 1 else age in
    let '(v', weight', g') := season_val SPORT cr (v, weight, g) age' in
    (Ok (age', weight'), {| rng := g'; heap := <[r := v']> h |}).
Proof.
  intros Hr. unfold season_step, season_val. cbv zeta.
  set (age' := if newPlayer || (1 <? years) then age + 1 else age).
  assert (Hd : developSeasonAt r age' (Some cr) {| rng := g; heap := h |}
               = (Ok tt,
                  {| rng := (developSeason v age' (Some cr) g).2;
                     heap := <[r := (developSeason v age' (Some cr) g).1]> h
                  |})).
  { unfold developSeasonAt.
    rewrite (bind_ok _ _ _ v {| rng := g; heap := h |})
      by now apply readRatings_ok.
    unfold bind, draw, writeRatings; cbn [rng heap].
    now destruct (developSeason v age' (Some cr) g). }
  rewrite (bind_ok _ _ _ _ _ Hd).
  destruct (developSeason v age' (Some cr) g) as [v' g1]; cbn [fst snd].
  assert (Hv' : <[r := v']> h !! r = Some v').
  { apply list_lookup_insert_eq. now apply lookup_lt_Some in Hr. }
  destruct SPORT; try reflexivity.
  rewrite (bind_ok _ _ _ v' {| rng := g1; heap := <[r := v']> h |})
    by now apply readRatings_ok.
  unfold bind, draw, ret; cbn [rng heap].
  now destruct (genWeight (hgt v') (stre v') g1).
Qed.

Lemma season_loop_ok n : forall r v years newPlayer cr age weight g h,
  h !! r = Some v ->
  season_loop SPORT n r years newPlayer cr (age, weight)
    {| rng := g; heap := h |}
  = let ages := loop_ages n age (newPlayer || (1 <? years)) in
    let '(v', weight', g') := seasons_val SPORT cr ages (v, weight, g) in
    (Ok (List.last ages age, weight'),
     {| rng := g'; heap := <[r := v']> h |}).
Proof.
  induction n as [|n IH]; intros r v years newPlayer cr age weight g h Hr.
  - simpl. unfold ret. now rewrite list_insert_id.
  - cbn [season_loop loop_ages].
    pose proof (season_step_ok r v years newPlayer cr age weight g h Hr)
      as Hs.
    cbv zeta in Hs |- *.
    set (age' := if newPlayer || (1 <? years) then age + 1 else age) in *.
    unfold seasons_val. cbn [fold_left].
    destruct (season_val SPORT cr (v, weight, g) age') as [[v1 wt1] g1].
    rewrite (bind_ok _ _ _ _ _ Hs).
    assert (Hv1 : <[r := v1]> h !! r = Some v1).
    { apply list_lookup_insert_eq. now apply lookup_lt_Some in Hr. }
    rewrite (IH r v1 years newPlayer cr age' wt1 g1 _ Hv1).
    cbv zeta. fold age'. unfold seasons_val.
    destruct (fold_left _ _ (v1, wt1, g1)) as [[v2 wt2] g2].
    rewrite list_insert_insert_eq.
    f_equal. f_equal. f_equal.
    destruct (loop_ages n age' (newPlayer || (1 <? years))) as [|a l];
      [reflexivity|].
    change (List.last (a :: l) age' = List.last (a :: l) age).
    apply last_nonempty_default.
Qed.

Lemma loop_ages_bump n : forall age,
  loop_ages n age true
  = map (fun i => age + Z.of_nat i + 1) (seq 0 n).
Proof.
  induction n as [|n IH]; intros age; simpl; [reflexivity|].
  f_equal; [lia|]. rewrite IH, <- seq_shift, map_map.
  apply map_ext. intros i. lia.
Qed.

Lemma loop_ages_keep n age : loop_ages n age false = repeat age n.
Proof. induction n as [|n IH]; simpl; [reflexivity|now rewrite IH]. Qed.

(** *** The first reduce: overalls at every position and the selection *)

Lemma ovrs_step_inv (v : RatingsP) done acc x :
  ovrs_inv v done acc -> ovrs_inv v (done ++ [x]) (ovrs_step v acc x).
Proof.
  destruct acc as [[ovrs pos] maxOvr]. intros [Hmap Hsel].
  unfold ovrs_step.
  assert (Hmap' : forall k, <[x := player_ovr v (Some x)]> ovrs !! k
            = if decide (k ∈ done ++ [x]) then Some (player_ovr v (Some k))
              else None).
  { intros k. destruct (decide (x = k)) as [->|Hne].
    - rewrite lookup_insert_eq. rewrite decide_True; [reflexivity|].
      apply elem_of_app. right. now apply list_elem_of_singleton.
    - rewrite lookup_insert_ne by exact Hne. rewrite Hmap.
      destruct (decide (k ∈ done)) as [Hin|Hnin].
      + rewrite decide_True; [reflexivity|]. apply elem_of_app. now left.
      + rewrite decide_False; [reflexivity|]. rewrite elem_of_app.
        intros [?|Hx]; [contradiction|].
        apply list_elem_of_singleton in Hx. congruence. }
  destruct (includes bannedPositions x) eqn:Hban; cbn [negb andb].
  - (* a banned position never changes the selection *)
    split; [exact Hmap'|].
    destruct pos as [s|], maxOvr as [mx|]; try contradiction.
    + destruct Hsel as (Hmx & Hel & pre & post & -> & Hpre & Hpost).
      split; [exact Hmx|]. split; [exact Hel|].
      exists pre, (post ++ [x]). rewrite <- app_assoc. split; [reflexivity|].
      split; [exact Hpre|].
      intros q Hq Helq. apply elem_of_app in Hq as [Hq|Hq]; [now apply Hpost|].
      apply list_elem_of_singleton in Hq. subst q.
      unfold eligible in Helq. congruence.
    + intros q Hq Helq. apply elem_of_app in Hq as [Hq|Hq].
      * now apply (Hsel q).
      * apply list_elem_of_singleton in Hq. subst q.
        unfold eligible in Helq. congruence.
  - destruct pos as [s|], maxOvr as [mx|]; try contradiction.
    + destruct Hsel as (Hmx & Hel & pre & post & -> & Hpre & Hpost).
      cbn [above].
      destruct (Z.ltb_spec mx (player_ovr v (Some x))) as [Hlt|Hge].
      * split; [exact Hmap'|]. split; [reflexivity|]. split; [exact Hban|].
        exists (pre ++ s :: post), []. split; [reflexivity|]. split.
        -- intros q Hq Helq. apply elem_of_app in Hq as [Hq|Hq].
           ++ specialize (Hpre q Hq Helq). lia.
           ++ apply elem_of_cons in Hq as [->|Hq]; [lia|].
              specialize (Hpost q Hq Helq). lia.
        -- intros q Hq. now apply elem_of_nil in Hq.
      * split; [exact Hmap'|]. split; [exact Hmx|]. split; [exact Hel|].
        exists pre, (post ++ [x]). rewrite <- app_assoc.
        split; [reflexivity|]. split; [exact Hpre|].
        intros q Hq Helq. apply elem_of_app in Hq as [Hq|Hq];
          [now apply Hpost|].
        apply list_elem_of_singleton in Hq. now subst q.
    + cbn [above]. split; [exact Hmap'|]. split; [reflexivity|].
      split; [exact Hban|].
      exists done, []. split; [reflexivity|]. split.
      * intros q Hq Helq. now destruct (Hsel q Hq).
      * intros q Hq. now apply elem_of_nil in Hq.
Qed.

Lemma ovrs_fold_inv (v : RatingsP) l : forall done acc,
  ovrs_inv v done acc ->
  ovrs_inv v (done ++ l) (fold_left (ovrs_step v) l acc).
Proof.
  induction l as [|x l IH]; intros done acc Hinv; simpl.
  - now rewrite app_nil_r.
  - replace (done ++ x :: l) with ((done ++ [x]) ++ l)
      by now rewrite <- app_assoc.
    apply IH. now apply ovrs_step_inv.
Qed.

Lemma ovrs_reduce_inv (v : RatingsP) :
  ovrs_inv v POSITIONS (fold_left (ovrs_step v) POSITIONS (∅, None, None)).
Proof.
  apply (ovrs_fold_inv v POSITIONS [] (∅, None, None)).
  split.
  - intros k. rewrite lookup_empty. rewrite decide_False; [reflexivity|].
    apply not_elem_of_nil.
  - intros q Hq. now apply elem_of_nil in Hq.
Qed.

(** *** What bootstrapPot returns *)

Lemma Math_round_ge (o : Z) (q : Q) :
  Qle_bool (inject_Z o) q = true -> o <= Math_round q.
Proof.
  intros Hle. apply Qle_bool_iff in Hle. unfold Math_round.
  rewrite <- (Qfloor_Z o). apply Qfloor_resp_le.
  apply Qle_trans with q; [exact Hle|].
  rewrite <- (Qplus_0_r q) at 1. apply Qplus_le_r. discriminate.
Qed.

Lemma bound_range (x lo hi : Z) : lo <= hi -> lo <= bound x lo hi <= hi.
Proof.
  intros Hlh. unfold bound.
  destruct (Z.ltb_spec x lo); [lia|]. destruct (Z.ltb_spec hi x); lia.
Qed.

Lemma bound_ge (o x lo hi : Z) :
  lo <= hi -> o <= x -> o <= hi -> o <= bound x lo hi.
Proof.
  intros Hlh Hx Hhi. unfold bound.
  destruct (Z.ltb_spec x lo); [lia|]. destruct (Z.ltb_spec hi x); lia.
Qed.

Lemma coeffsByPos_nonempty p coeffs :
  coeffsByPos !! p = Some coeffs -> p <> EmptyString.
Proof. intros Hc ->. discriminate Hc. Qed.

Lemma current_ovr_nonempty v p :
  p <> EmptyString -> current_ovr v (Some p) = ovrs_at v p.
Proof.
  intros Hp. unfold current_ovr, truthy.
  destruct (String.eqb_spec p EmptyString); [contradiction|reflexivity].
Qed.

Lemma regression_at_least (o : Z) (q : Q) :
  o <= 100 ->
  exists x, (if exceeds (Num o) (Some q) then Num o
             else round_and_bound (Some q)) = Num x /\ o <= x.
Proof.
  intros Ho. unfold exceeds, round_and_bound.
  destruct (Qle_bool (inject_Z o) q) eqn:Hle; cbn [negb].
  - eexists. split; [reflexivity|].
    apply bound_ge; [lia| |exact Ho]. now apply Math_round_ge.
  - exists o. split; [reflexivity|lia].
Qed.


(** A property [P] of the current overall that the regression result keeps
    and that survives every update of a trial's maximum holds of the value
    [bootstrapPot] returns. *)
Lemma bootstrapPot_result (P : num -> Prop) r v age pos w val w' :
  (forall m (c : RatingsP), P m -> num_gt (player_ovr c pos) m = true ->
                            P (Num (player_ovr c pos))) ->
  (forall o q, SPORT = football -> current_ovr v pos = Num o ->
               P (if exceeds (Num o) (Some q) then Num o
                  else round_and_bound (Some q))) ->
  (exists o, current_ovr v pos = Num o) ->
  P (current_ovr v pos) ->
  heap w !! r = Some v ->
  bootstrapPot SPORT r age pos w = (Ok val, w') ->
  P val.
Proof.
  intros Hstep Hreg [o Ho] Hseed Hr Hres.
  destruct (Z.le_gt_cases 29 age) as [Ha|Ha].
  - rewrite (bootstrapPot_old r v age pos w Ha Hr) in Hres.
    now inversion Hres; subst.
  - destruct (potEstimator SPORT) as [est|] eqn:He.
    + assert (Hs : SPORT = football) by (now destruct SPORT).
      destruct pos as [p|].
      * destruct (coeffsByPos !! p) as [coeffs|] eqn:Hc.
        -- rewrite (bootstrapPot_regression r v age p coeffs w Hs) in Hres
             by (assumption || lia).
           rewrite (current_ovr_nonempty v p) in Ho
             by exact (coeffsByPos_nonempty p coeffs Hc).
           specialize (Hreg o).
           rewrite (current_ovr_nonempty v p) in Hreg
             by exact (coeffsByPos_nonempty p coeffs Hc).
           cbv zeta in Hres. rewrite Ho in Hres.
           unfold football_potEstimator in Hres. rewrite Hc in Hres.
           destruct (randInt (-2) 2 (rng w)) as [j g'].
           cbn [option_map] in Hres. inversion Hres; subst.
           now apply Hreg.
        -- rewrite (bootstrapPot_invalid r v age p w Hs) in Hres
             by (assumption || lia).
           discriminate Hres.
      * rewrite (bootstrapPot_no_pos r age w Hs) in Hres by lia.
        discriminate Hres.
    + rewrite (bootstrapPot_simulated r v age pos w He) in Hres
        by (assumption || lia).
      pose proof (trials_val_inv P pos v age Hstep Hseed
                    (Z.to_nat NUM_SIMULATIONS) (rng w)) as Hall.
      pose proof (trials_val_length (Z.to_nat NUM_SIMULATIONS) v age pos
                    (rng w)) as [Hlen _].
      destruct (trials_val _ v age pos (rng w)) as [[ms cs] g'].
      cbn [fst snd] in *. inversion Hres; subst.
      apply at_index_Forall; [exact Hall|].
      rewrite Hlen. rewrite percentile_index_15.
      unfold NUM_SIMULATIONS. lia.
Qed.

Lemma bootstrapPot_at_least r v age pos w val w' o :
  heap w !! r = Some v ->
  current_ovr v pos = Num o ->
  (SPORT = football -> o <= 100) ->
  bootstrapPot SPORT r age pos w = (Ok val, w') ->
  at_least o val.
Proof.
  intros Hr Ho H100 Hres.
  apply (bootstrapPot_result (at_least o) r v age pos w val w'); auto.
  - intros m c [x [-> Hx]] Hgt. cbn [num_gt] in Hgt.
    apply Z.ltb_lt in Hgt. eexists. split; [reflexivity|lia].
  - intros o' q Hs Ho'. rewrite Ho in Ho'. inversion Ho'; subst o'.
    apply regression_at_least. auto.
  - now exists o.
  - rewrite Ho. exists o. split; [reflexivity|lia].
Qed.


(** *** The second reduce: potentials at every position *)

Lemma lookup_extend h (cs : list RatingsP) r v :
  h !! r = Some v -> (h ++ cs) !! r = Some v.
Proof.
  intros Hr. rewrite lookup_app_l; [exact Hr|]. now apply lookup_lt_Some in Hr.
Qed.

Lemma pots_reduce r v age l : forall acc w res w',
  heap w !! r = Some v ->
  foldM (pots_step SPORT r age) l acc w = (res, w') ->
  (exists cs, heap w' = heap w ++ cs) /\
  match res with
  | Ok pots =>
      (forall k, k ∉ l -> pots !! k = acc !! k)
      /\ (forall k, k ∈ l -> exists val, pots !! k = Some val
                                         /\ pot_of_call SPORT r v age k val)
  | Throw _ => True
  end.
Proof.
  induction l as [|x l IH]; intros acc w res w' Hr Hf.
  - simpl in Hf. inversion Hf; subst.
    split; [exists []; now rewrite app_nil_r|].
    split; [reflexivity|].
    intros k Hk. now apply elem_of_nil in Hk.
  - cbn [foldM] in Hf. unfold pots_step at 1 in Hf.
    destruct (bootstrapPot SPORT r age (Some x) w) as [res1 w1] eqn:Hb.
    destruct (bootstrapPot_frame r age (Some x) w) as [cs1 Hcs1].
    rewrite Hb in Hcs1. cbn [snd] in Hcs1.
    destruct res1 as [val|e].
    + unfold bind at 1 2 in Hf. rewrite Hb in Hf. unfold ret at 1 in Hf.
      assert (Hr1 : heap w1 !! r = Some v).
      { rewrite Hcs1. now apply lookup_extend. }
      destruct (IH _ _ _ _ Hr1 Hf) as ([cs2 Hcs2] & Hres).
      split. { exists (cs1 ++ cs2). now rewrite Hcs2, Hcs1, <- app_assoc. }
      destruct res as [pots|e]; [|exact I].
      destruct Hres as [Hout Hin]. split.
      * intros k Hk. rewrite not_elem_of_cons in Hk. destruct Hk as [Hne Hk].
        rewrite (Hout k Hk). now rewrite lookup_insert_ne.
      * intros k Hk. destruct (decide (k ∈ l)) as [Hkl|Hkl].
        -- now apply Hin.
        -- apply elem_of_cons in Hk as [->|Hk]; [|contradiction].
           exists val. split.
           ++ rewrite (Hout x Hkl). apply lookup_insert_eq.
           ++ now exists w, w1.
    + unfold bind at 1 2 in Hf. rewrite Hb in Hf. inversion Hf; subst.
      split; [now exists cs1|exact I].
Qed.

(** *** What develop stores *)

Lemma modifyRatings_inv r f w res w' :
  modifyRatings r f w = (res, w') ->
  match heap w !! r with
  | Some v => res = Ok tt /\ rng w' = rng w /\ heap w' = <[r := f v]> (heap w)
              /\ heap w' !! r = Some (f v)
  | None => res = Throw TypeError /\ w' = w
  end.
Proof.
  intros Hm. destruct (heap w !! r) as [v|] eqn:Hr.
  - rewrite (modifyRatings_ok r f v w Hr) in Hm. inversion Hm; subst.
    cbn [rng heap]. repeat split; try reflexivity.
    apply list_lookup_insert_eq. now apply lookup_lt_Some in Hr.
  - unfold modifyRatings in Hm.
    rewrite (bind_throw _ _ _ _ _ (readRatings_none _ _ Hr)) in Hm.
    now inversion Hm.
Qed.

(** The single-position branch. *)
Lemma finalize_basketball p r v age skipPot w w' :
  SPORT = basketball ->
  heap w !! r = Some v ->
  finalize SPORT p r age skipPot w = (Ok tt, w') ->
  exists v', heap w' !! r = Some v'
    /\ ovr v' = Num (player_ovr v None)
    /\ (if skipPot then pot v' = pot v
        else exists w1 w2,
            heap w1 !! r = Some (set_ovr (Num (player_ovr v None)) v)
            /\ bootstrapPot SPORT r age None w1 = (Ok (pot v'), w2))
    /\ ovrs v' = ovrs v /\ pots v' = pots v
    /\ pos v' = override_or p (player_pos (set_pot (pot v')
                  (set_ovr (Num (player_ovr v None)) v))).
Proof.
  intros Hs Hr Hf.
  assert (Hfin : finalize SPORT p r age skipPot
                 = finalize_single SPORT p r age skipPot)
    by (unfold finalize; now rewrite Hs).
  rewrite Hfin in Hf. clear Hfin. unfold finalize_single in Hf.
  set (v1 := set_ovr (Num (player_ovr v None)) v) in *.
  rewrite (bind_ok _ _ _ _ _
             (modifyRatings_ok r _ v w Hr)) in Hf.
  fold v1 in Hf.
  set (w1 := {| rng := rng w; heap := <[r := v1]> (heap w) |}) in *.
  assert (Hr1 : heap w1 !! r = Some v1).
  { apply list_lookup_insert_eq. now apply lookup_lt_Some in Hr. }
  destruct skipPot.
  - rewrite (bind_ok _ _ _ tt w1) in Hf by reflexivity.
    rewrite (modifyRatings_ok r _ v1 w1 Hr1) in Hf. inversion Hf; subst w'.
    eexists. cbn [heap]. split.
    { apply list_lookup_insert_eq. rewrite length_insert.
      now apply lookup_lt_Some in Hr. }
    cbn. repeat split; reflexivity.
  - unfold bind at 1 2 in Hf.
    destruct (bootstrapPot SPORT r age None w1) as [res w2] eqn:Hb.
    destruct (bootstrapPot_frame r age None w1) as [cs Hcs].
    rewrite Hb in Hcs. cbn [snd] in Hcs.
    destruct res as [val|e]; [|discriminate Hf].
    assert (Hr2 : heap w2 !! r = Some v1).
    { rewrite Hcs. now apply lookup_extend. }
    rewrite (modifyRatings_ok r _ v1 w2 Hr2) in Hf.
    set (w3 := {| rng := rng w2; heap := <[r := set_pot val v1]> (heap w2) |})
      in *.
    assert (Hr3 : heap w3 !! r = Some (set_pot val v1)).
    { apply list_lookup_insert_eq. now apply lookup_lt_Some in Hr2. }
    rewrite (modifyRatings_ok r _ _ w3 Hr3) in Hf. inversion Hf; subst w'.
    eexists. cbn [heap]. split.
    { apply list_lookup_insert_eq. rewrite length_insert.
      now apply lookup_lt_Some in Hr2. }
    cbn. repeat split; try reflexivity.
    now exists w1, w2.
Qed.

(** The multi-position branch: the snapshot after the call, in terms of the
    two reduces. *)
Lemma finalize_positions p r v age skipPot w w' :
  SPORT <> basketball ->
  heap w !! r = Some v ->
  finalize SPORT p r age skipPot w = (Ok tt, w') ->
  exists ovrs' sel mx pots',
    fold_left (ovrs_step v) POSITIONS (∅, None, None) = (ovrs', Some sel, mx)
    /\ (if skipPot then pots' = pots v
        else (forall k, k ∉ POSITIONS -> pots' !! k = None)
             /\ (forall k, k ∈ POSITIONS ->
                   exists val, pots' !! k = Some val
                     /\ pot_of_call SPORT r (set_ovrs ovrs' v) age k val))
    /\ let v2 := set_pots pots' (set_ovrs ovrs' v) in
       let v3 := set_ovr (ovrs_at v2 sel) v2 in
       let v4 := set_pot (pots_at v3 sel) v3 in
       heap w' !! r = Some (set_pos (override_or p sel) v4).
Proof.
  intros Hs Hr Hf.
  assert (Hfin : finalize SPORT p r age skipPot
                 = finalize_multi SPORT p r age skipPot)
    by (unfold finalize; now destruct SPORT).
  rewrite Hfin in Hf. clear Hfin. unfold finalize_multi in Hf.
  rewrite (bind_ok _ _ _ _ _ (readRatings_ok _ _ _ Hr)) in Hf.
  destruct (fold_left (ovrs_step v) POSITIONS (∅, None, None))
    as [[ovrs' pos'] mx] eqn:Hfold.
  rewrite (bind_ok _ _ _ _ _ (modifyRatings_ok r _ v w Hr)) in Hf.
  set (v1 := set_ovrs ovrs' v) in *.
  set (w1 := {| rng := rng w; heap := <[r := v1]> (heap w) |}) in *.
  assert (Hr1 : heap w1 !! r = Some v1).
  { apply list_lookup_insert_eq. now apply lookup_lt_Some in Hr. }
  (* the three assignments after the reduces *)
  assert (Htail : forall (v2 : RatingsP) wa sel,
            heap wa !! r = Some v2 ->
            (let! _ := modifyRatings r
                         (fun x : RatingsP => set_ovr (ovrs_at x sel) x) in
             let! _ := modifyRatings r
                         (fun x : RatingsP => set_pot (pots_at x sel) x) in
             modifyRatings r (set_pos (override_or p sel))) wa = (Ok tt, w') ->
            heap w' !! r
            = Some (set_pos (override_or p sel)
                      (set_pot (pots_at (set_ovr (ovrs_at v2 sel) v2) sel)
                         (set_ovr (ovrs_at v2 sel) v2)))).
  { intros v2 wa sel Ha Ht.
    rewrite (bind_ok _ _ _ _ _ (modifyRatings_ok r _ v2 wa Ha)) in Ht.
    set (wb := {| rng := rng wa;
                  heap := <[r := set_ovr (ovrs_at v2 sel) v2]> (heap wa) |})
      in *.
    assert (Hb : heap wb !! r = Some (set_ovr (ovrs_at v2 sel) v2)).
    { apply list_lookup_insert_eq. now apply lookup_lt_Some in Ha. }
    rewrite (bind_ok _ _ _ _ _ (modifyRatings_ok r _ _ wb Hb)) in Ht.
    match type of Ht with
    | modifyRatings _ _ ?wc = _ =>
        assert (Hc : heap wc !! r
                     = Some (set_pot (pots_at (set_ovr (ovrs_at v2 sel) v2) sel)
                               (set_ovr (ovrs_at v2 sel) v2)))
    end.
    { apply list_lookup_insert_eq. now apply lookup_lt_Some in Hb. }
    rewrite (modifyRatings_ok r _ _ _ Hc) in Ht. inversion Ht; subst w'.
    cbn [heap]. apply list_lookup_insert_eq. rewrite length_insert.
    now apply lookup_lt_Some in Hb. }
  destruct skipPot.
  - rewrite (bind_ok _ _ _ tt w1) in Hf by reflexivity.
    destruct pos' as [sel|]; [|discriminate Hf].
    exists ovrs', sel, mx, (pots v). split; [reflexivity|].
    split; [reflexivity|]. cbv zeta.
    replace (set_pots (pots v) (set_ovrs ovrs' v)) with v1
      by (unfold v1; now destruct v).
    now apply (Htail v1 w1 sel).
  - unfold bind at 1 2 in Hf.
    destruct (foldM (pots_step SPORT r age) POSITIONS ∅ w1) as [res w2]
      eqn:Hp.
    destruct (pots_reduce r v1 age POSITIONS ∅ w1 res w2 Hr1 Hp)
      as ([cs Hcs] & Hres).
    destruct res as [pots'|e]; [|discriminate Hf].
    destruct Hres as [Hout Hin].
    assert (Hr2 : heap w2 !! r = Some v1).
    { rewrite Hcs. now apply lookup_extend. }
    rewrite (modifyRatings_ok r _ v1 w2 Hr2) in Hf.
    destruct pos' as [sel|]; [|discriminate Hf].
    exists ovrs', sel, mx, pots'. split; [reflexivity|]. split.
    + split; [|exact Hin]. intros k Hk. now rewrite (Hout k Hk).
    + cbv zeta.
      match type of Hf with
      | _ ?wc = _ => apply (Htail (set_pots pots' v1) wc sel); [|exact Hf]
      end.
      cbn [heap]. apply list_lookup_insert_eq. now apply lookup_lt_Some in Hr2.
Qed.

(** A successful call of develop, step by step: the snapshot [v0] on entry,
    [v1] after the season loop, [v2] after the overall, potential and
    position have been stored, and the final snapshot with its skills. *)
Lemma develop_inv p years newPlayer cr skipPot w p' w' :
  develop SPORT p years newPlayer cr skipPot w = (Ok p', w') ->
  exists r v0 v1 wt1 g1 w2 v2,
    last (p_ratings p) = Some r /\ heap w !! r = Some v0 /\
    let age0 := season v0 - born_year p in
    let ages := loop_ages (Z.to_nat years) age0 (newPlayer || (1 <? years)) in
    seasons_val SPORT cr ages (v0, weight p, rng w) = (v1, wt1, g1)
    /\ finalize SPORT p r (List.last ages age0) skipPot
         {| rng := g1; heap := <[r := v1]> (heap w) |} = (Ok tt, w2)
    /\ heap w2 !! r = Some v2
    /\ heap w' !! r = Some (set_skills (skills_of v2) v2)
    /\ weight p' = wt1
    /\ born_year p' = (if newPlayer then born_year p - years else born_year p)
    /\ draft p'
       = (if tid p =? PLAYER_UNDRAFTED then
            {| draft_ovr := ovr v2;
               draft_pot := if skipPot then draft_pot (draft p) else pot v2;
               draft_skills := skills_of v2 |}
          else draft p).
Proof.
  intros Hd. unfold develop in Hd.
  destruct (last (p_ratings p)) as [r|] eqn:Hlast; [|discriminate Hd].
  destruct (heap w !! r) as [v0|] eqn:Hr.
  2:{ rewrite (bind_throw _ _ _ _ _ (readRatings_none _ _ Hr)) in Hd.
      discriminate Hd. }
  rewrite (bind_ok _ _ _ _ _ (readRatings_ok _ _ _ Hr)) in Hd.
  destruct w as [g h]. cbn [rng heap] in *.
  pose proof (season_loop_ok (Z.to_nat years) r v0 years newPlayer cr
                (season v0 - born_year p) (weight p) g h Hr) as Hloop.
  cbv zeta in Hloop.
  set (age0 := season v0 - born_year p) in *.
  set (ages := loop_ages (Z.to_nat years) age0 (newPlayer || (1 <? years)))
    in *.
  destruct (seasons_val SPORT cr ages (v0, weight p, g)) as [[v1 wt1] g1]
    eqn:Hseasons.
  rewrite (bind_ok _ _ _ _ _ Hloop) in Hd.
  unfold bind at 1 in Hd.
  destruct (finalize SPORT p r (List.last ages age0) skipPot
              {| rng := g1; heap := <[r := v1]> h |}) as [res w2] eqn:Hfin.
  destruct res as [[]|e]; [|discriminate Hd].
  unfold bind at 1 in Hd.
  destruct (modifyRatings r (fun x : RatingsP => set_skills (skills_of x) x) w2)
    as [res3 w3] eqn:Hm.
  pose proof (modifyRatings_inv _ _ _ _ _ Hm) as Hinv.
  destruct (heap w2 !! r) as [v2|] eqn:Hr2.
  2:{ destruct Hinv as [-> _]. discriminate Hd. }
  destruct Hinv as (-> & Hrng & Hheap & Hr3).
  rewrite (bind_ok _ _ _ _ _ (readRatings_ok _ _ _ Hr3)) in Hd.
  unfold ret in Hd. inversion Hd; subst p' w'.
  exists r, v0, v1, wt1, g1, w2, v2. cbn.
  repeat split; try reflexivity; try assumption.
Qed.

(** The multi-position branch, with the invariant of the first reduce
    unfolded: what the snapshot holds afterwards. *)
Lemma finalize_positions_stored p r v age skipPot w w' :
  SPORT <> basketball ->
  heap w !! r = Some v ->
  finalize SPORT p r age skipPot w = (Ok tt, w') ->
  exists v' sel,
    heap w' !! r = Some v'
    /\ (forall k, ovrs v' !! k
                  = if decide (k ∈ POSITIONS)
                    then Some (player_ovr v (Some k)) else None)
    /\ eligible sel
    /\ (exists pre post, POSITIONS = pre ++ sel :: post
          /\ (forall q, q ∈ pre -> eligible q ->
                player_ovr v (Some q) < player_ovr v (Some sel))
          /\ (forall q, q ∈ post -> eligible q ->
                player_ovr v (Some q) <= player_ovr v (Some sel)))
    /\ ovr v' = Num (player_ovr v (Some sel))
    /\ pot v' = pots_at v' sel
    /\ pos v' = override_or p sel
    /\ (if skipPot then pots v' = pots v
        else (forall k, k ∉ POSITIONS -> pots v' !! k = None)
             /\ (forall k, k ∈ POSITIONS ->
                   exists val, pots v' !! k = Some val
                     /\ pot_of_call SPORT r (set_ovrs (ovrs v') v) age k val)).
Proof.
  intros Hs Hr Hf.
  destruct (finalize_positions p r v age skipPot w w' Hs Hr Hf)
    as (ovrs' & sel & mx & pots' & Hfold & Hpots & Hfinal).
  pose proof (ovrs_reduce_inv v) as Hinv. rewrite Hfold in Hinv.
  destruct Hinv as [Hmap Hsel]. destruct mx as [m|]; [|contradiction].
  destruct Hsel as (Hm & Hel & pre & post & Hpos & Hpre & Hpost). subst m.
  cbv zeta in Hfinal.
  eexists _, sel. split; [exact Hfinal|]. cbn.
  split; [exact Hmap|]. split; [exact Hel|].
  split; [now exists pre, post|].
  split.
  { unfold ovrs_at. cbn. rewrite Hmap. rewrite decide_True; [reflexivity|].
    rewrite Hpos. apply elem_of_app. right. now left. }
  split; [reflexivity|]. split; [reflexivity|]. exact Hpots.
Qed.

(** *** When develop returns *)

Lemma bootstrapPot_returns r v age pos w :
  heap w !! r = Some v ->
  (SPORT = football -> age < 29 ->
     exists p, pos = Some p /\ is_Some (coeffsByPos !! p)) ->
  exists val w', bootstrapPot SPORT r age pos w = (Ok val, w').
Proof.
  intros Hr Hcfg.
  destruct (Z.le_gt_cases 29 age) as [Ha|Ha].
  - rewrite (bootstrapPot_old r v age pos w Ha Hr). eauto.
  - destruct (potEstimator SPORT) as [est|] eqn:He.
    + assert (Hs : SPORT = football) by (now destruct SPORT).
      destruct (Hcfg Hs) as (p & -> & [coeffs Hc]); [lia|].
      rewrite (bootstrapPot_regression r v age p coeffs w Hs) by
        (assumption || lia).
      cbv zeta. destruct (randInt (-2) 2 (rng w)). eauto.
    + rewrite (bootstrapPot_simulated r v age pos w He) by (assumption || lia).
      destruct (trials_val _ v age pos (rng w)) as [[ms cs] g']. eauto.
Qed.

Lemma pots_reduce_returns r v age l : forall acc w,
  heap w !! r = Some v ->
  (SPORT = football -> age < 29 ->
     forall k, k ∈ l -> is_Some (coeffsByPos !! k)) ->
  exists pots w', foldM (pots_step SPORT r age) l acc w = (Ok pots, w').
Proof.
  induction l as [|x l IH]; intros acc w Hr Hcfg.
  - simpl. unfold ret. eauto.
  - cbn [foldM]. unfold pots_step at 1.
    destruct (bootstrapPot_returns r v age (Some x) w Hr) as (val & w1 & Hb).
    { intros Hs Ha. exists x. split; [reflexivity|].
      apply (Hcfg Hs Ha). now left. }
    destruct (bootstrapPot_frame r age (Some x) w) as [cs Hcs].
    rewrite Hb in Hcs. cbn [snd] in Hcs.
    unfold bind at 1 2. rewrite Hb. unfold ret at 1.
    apply IH.
    + rewrite Hcs. now apply lookup_extend.
    + intros Hs Ha k Hk. apply (Hcfg Hs Ha). now right.
Qed.

Lemma finalize_returns p r v age skipPot w :
  heap w !! r = Some v ->
  (SPORT <> basketball -> exists q, q ∈ POSITIONS /\ eligible q) ->
  (SPORT = football -> skipPot = false -> age < 29 ->
     forall k, k ∈ POSITIONS -> is_Some (coeffsByPos !! k)) ->
  exists w', finalize SPORT p r age skipPot w = (Ok tt, w').
Proof.
  intros Hr Hel Hcfg.
  assert (Hlive : forall (f : RatingsP -> RatingsP) (x : RatingsP)
                         (wa : worldP),
            heap wa !! r = Some x ->
            heap {| rng := rng wa; heap := <[r := f x]> (heap wa) |} !! r
            = Some (f x)).
  { intros f x wa Ha. apply list_lookup_insert_eq.
    now apply lookup_lt_Some in Ha. }
  destruct (decide (SPORT = basketball)) as [Hs|Hs].
  - assert (Hfin : finalize SPORT p r age skipPot
                   = finalize_single SPORT p r age skipPot)
      by (unfold finalize; now rewrite Hs).
    rewrite Hfin. unfold finalize_single.
    rewrite (bind_ok _ _ _ _ _ (modifyRatings_ok r _ v w Hr)).
    pose proof (Hlive (fun x => set_ovr (Num (player_ovr x None)) x) v w Hr)
      as Hr1.
    destruct skipPot.
    + rewrite (bind_ok _ _ _ tt _ eq_refl).
      rewrite (modifyRatings_ok r _ _ _ Hr1). eauto.
    + destruct (bootstrapPot_returns r _ age None _ Hr1) as (val & w2 & Hb).
      { intros Hf. rewrite Hf in Hs. discriminate Hs. }
      destruct (bootstrapPot_frame r age None
                  {| rng := rng w;
                     heap := <[r := set_ovr (Num (player_ovr v None)) v]>
                               (heap w) |}) as [cs Hcs].
      rewrite Hb in Hcs. cbn [snd] in Hcs.
      assert (Hr2 : heap w2 !! r = Some (set_ovr (Num (player_ovr v None)) v)).
      { rewrite Hcs. now apply lookup_extend. }
      unfold bind at 1 2. rewrite Hb.
      rewrite (modifyRatings_ok r _ _ _ Hr2).
      rewrite (modifyRatings_ok r _ _ _ (Hlive (set_pot val) _ w2 Hr2)).
      eauto.
  - assert (Hfin : finalize SPORT p r age skipPot
                   = finalize_multi SPORT p r age skipPot)
      by (unfold finalize; now destruct SPORT).
    rewrite Hfin. unfold finalize_multi.
    rewrite (bind_ok _ _ _ _ _ (readRatings_ok _ _ _ Hr)).
    pose proof (ovrs_reduce_inv v) as Hinv.
    destruct (fold_left (ovrs_step v) POSITIONS (∅, None, None))
      as [[ovrs' pos'] mx].
    destruct Hinv as [_ Hsel].
    destruct pos' as [sel|].
    2:{ destruct mx; [contradiction|].
        destruct (Hel Hs) as (q & Hq & Helq). now destruct (Hsel q Hq). }
    rewrite (bind_ok _ _ _ _ _ (modifyRatings_ok r _ v w Hr)).
    pose proof (Hlive (set_ovrs ovrs') v w Hr) as Hr1.
    assert (Htail : forall (x : RatingsP) (wa : worldP),
              heap wa !! r = Some x ->
              exists w',
                (let! _ := modifyRatings r
                             (fun y : RatingsP => set_ovr (ovrs_at y sel) y) in
                 let! _ := modifyRatings r
                             (fun y : RatingsP => set_pot (pots_at y sel) y) in
                 modifyRatings r (set_pos (override_or p sel))) wa
                = (Ok tt, w')).
    { intros x wa Ha.
      rewrite (bind_ok _ _ _ _ _ (modifyRatings_ok r _ x wa Ha)).
      pose proof (Hlive (fun y => set_ovr (ovrs_at y sel) y) x wa Ha) as Hb.
      rewrite (bind_ok _ _ _ _ _ (modifyRatings_ok r _ _ _ Hb)).
      pose proof (Hlive (fun y => set_pot (pots_at y sel) y) _ _ Hb) as Hc.
      cbn [rng] in Hc.
      rewrite (modifyRatings_ok r _ _ _ Hc). eauto. }
    destruct skipPot.
    + rewrite (bind_ok _ _ _ tt _ eq_refl). now apply (Htail _ _ Hr1).
    + destruct (pots_reduce_returns r _ age POSITIONS ∅ _ Hr1)
        as (pots' & w2 & Hp).
      { intros Hf Ha. now apply Hcfg. }
      destruct (pots_reduce r _ age POSITIONS ∅ _ _ _ Hr1 Hp)
        as ([cs Hcs] & _).
      assert (Hr2 : heap w2 !! r = Some (set_ovrs ovrs' v)).
      { rewrite Hcs. now apply lookup_extend. }
      unfold bind at 1 2. rewrite Hp.
      rewrite (modifyRatings_ok r _ _ _ Hr2).
      apply (Htail _ _ (Hlive (set_pots pots') _ w2 Hr2)).
Qed.

Lemma develop_returns p r v0 years newPlayer cr skipPot w :
  last (p_ratings p) = Some r ->
  heap w !! r = Some v0 ->
  (SPORT <> basketball -> exists q, q ∈ POSITIONS /\ eligible q) ->
  (SPORT = football -> skipPot = false ->
     forall k, k ∈ POSITIONS -> is_Some (coeffsByPos !! k)) ->
  exists p' w', develop SPORT p years newPlayer cr skipPot w = (Ok p', w').
Proof.
  intros Hlast Hr Hel Hcfg. unfold develop. rewrite Hlast.
  rewrite (bind_ok _ _ _ _ _ (readRatings_ok _ _ _ Hr)).
  destruct w as [g h]. cbn [rng heap] in *.
  pose proof (season_loop_ok (Z.to_nat years) r v0 years newPlayer cr
                (season v0 - born_year p) (weight p) g h Hr) as Hloop.
  cbv zeta in Hloop.
  destruct (seasons_val SPORT cr _ (v0, weight p, g)) as [[v1 wt1] g1].
  rewrite (bind_ok _ _ _ _ _ Hloop).
  assert (Hr1 : heap {| rng := g1; heap := <[r := v1]> h |} !! r = Some v1).
  { apply list_lookup_insert_eq. now apply lookup_lt_Some in Hr. }
  match goal with
  | |- context [finalize SPORT p r ?a skipPot] =>
      destruct (finalize_returns p r v1 a skipPot _ Hr1 Hel) as [w2 Hfin];
      [intros Hf Hk _; now apply Hcfg|];
      pose proof Hfin as Hfin'
  end.
  rewrite (bind_ok _ _ _ _ _ Hfin).
  assert (exists v2, heap w2 !! r = Some v2) as [v2 Hr2].
  { destruct (decide (SPORT = basketball)) as [Hs|Hs].
    - destruct (finalize_basketball _ _ _ _ _ _ _ Hs Hr1 Hfin')
        as (v2 & Hv2 & _). eauto.
    - destruct (finalize_positions_stored _ _ _ _ _ _ _ Hs Hr1 Hfin')
        as (v2 & sel & Hv2 & _). eauto. }
  rewrite (bind_ok _ _ _ _ _ (modifyRatings_ok r _ v2 w2 Hr2)).
  erewrite bind_ok.
  - unfold ret. eauto.
  - apply readRatings_ok. cbn [heap]. apply list_lookup_insert_eq.
    now apply lookup_lt_Some in Hr2.
Qed.

(** ** The results *)

(** C2: for every call of bootstrapPot with age at least 29, under either
    estimator, the value returned is exactly the current overall:
    ratings.ovrs[pos] when a position is given, ratings.ovr otherwise (an
    empty-string position is falsy in the source and reads ratings.ovr).  No
    random number is drawn and no season is simulated: the world after the
    call is the world before it. *)
Theorem bootstrapPot_at_29_is_current_overall r v age pos w :
  29 <= age ->
  heap w !! r = Some v ->
  bootstrapPot SPORT r age pos w = (Ok (current_ovr v pos), w)
  /\ (forall p, pos = Some p -> p <> EmptyString ->
                current_ovr v pos = ovrs_at v p)
  /\ (pos = None \/ pos = Some EmptyString -> current_ovr v pos = ovr v).
Proof.
  intros Ha Hr. split; [now apply bootstrapPot_old|]. split.
  - intros p -> Hp. now apply current_ovr_nonempty.
  - intros [->| ->]; reflexivity.
Qed.

(** C4: without a regression table and below age 29, bootstrapPot runs
    exactly NUM_SIMULATIONS = 20 trials, each on a fresh private copy of the
    same snapshot value, sorts the 20 maxima in ascending order and returns
    the element at index floor(0.75 * 20) = 15 of the sorted list. *)
Theorem bootstrapPot_takes_index_15_of_20_sorted r v age pos w :
  potEstimator SPORT = None ->
  age < 29 ->
  heap w !! r = Some v ->
  exists maxOvrs copies g' val,
    trials_val 20 v age pos (rng w) = (maxOvrs, copies, g')
    /\ mapM (fun _ => trial r age pos) (range NUM_SIMULATIONS) w
       = (Ok maxOvrs, {| rng := g'; heap := heap w ++ copies |})
    /\ length maxOvrs = 20%nat /\ length copies = 20%nat
    /\ StronglySorted num_le (orderBy maxOvrs)
    /\ Permutation (orderBy maxOvrs) maxOvrs
    /\ percentile_index = 15%nat
    /\ orderBy maxOvrs !! 15%nat = Some val
    /\ bootstrapPot SPORT r age pos w
       = (Ok val, {| rng := g'; heap := heap w ++ copies |}).
Proof.
  intros He Ha Hr.
  pose proof (bootstrapPot_simulated r v age pos w He Ha Hr) as Hb.
  destruct w as [g h]; cbn [rng heap] in *.
  pose proof (trials_ok (range NUM_SIMULATIONS) r v age pos g h Hr) as Ht.
  change (length (range NUM_SIMULATIONS)) with 20%nat in Ht.
  change (Z.to_nat NUM_SIMULATIONS) with 20%nat in Hb.
  pose proof (trials_val_length 20 v age pos g) as [Hl1 Hl2].
  destruct (trials_val 20 v age pos g) as [[ms cs] g'] eqn:Htv.
  cbn [fst snd] in Hl1, Hl2.
  assert (Hlt : (15 < length (orderBy ms))%nat)
    by (rewrite orderBy_length, Hl1; lia).
  destruct (lookup_lt_is_Some_2 _ _ Hlt) as [val Hval].
  exists ms, cs, g', val.
  repeat split; try assumption.
  - apply orderBy_sorted.
  - apply orderBy_perm.
  - rewrite Hb. unfold at_index. rewrite percentile_index_15.
    now rewrite Hval.
Qed.


(** C10: bootstrapPot never mutates its ratings argument.  Whatever the
    outcome (a value or a throw), the heap afterwards is the heap before
    followed by the private copies made by the trials, so the object passed
    in, like every object that existed before the call, holds the value it
    held before.  (The strategy's season progression is given one object and
    mutates only that object.) *)
Theorem bootstrapPot_does_not_mutate_ratings r age pos w :
  (exists copies, heap (bootstrapPot SPORT r age pos w).2 = heap w ++ copies)
  /\ heap (bootstrapPot SPORT r age pos w).2 !! r = heap w !! r
  /\ forall r', (r' < length (heap w))%nat ->
       heap (bootstrapPot SPORT r age pos w).2 !! r' = heap w !! r'.
Proof.
  destruct (bootstrapPot_frame r age pos w) as [cs Hcs].
  split; [now exists cs|]. split.
  - destruct (heap w !! r) as [v|] eqn:Hr.
    + rewrite Hcs. now apply lookup_extend.
    + destruct (bootstrapPot_dangling r age pos w Hr) as [e ->]. exact Hr.
  - intros r' Hlt. rewrite Hcs. now apply lookup_app_l.
Qed.

(** C5: in develop's loop, when newPlayer is true or years > 1 the age is
    incremented before each iteration, so the season progression is called
    at ages age+1, age+2, ..., age+years and the loop ends with
    age + years; when exactly one season is developed for an existing player
    the progression is called once at the entry age and the age is unchanged.
    The loop never throws on a live ratings object, and develop enters it
    with age = ratings.season - p.born.year. *)
Theorem develop_loop_age_bookkeeping r v years newPlayer cr age wt g h :
  h !! r = Some v ->
  (newPlayer = true \/ 1 < years ->
     season_loop SPORT (Z.to_nat years) r years newPlayer cr (age, wt)
       {| rng := g; heap := h |}
     = let ages := map (fun i => age + Z.of_nat i + 1)
                       (seq 0 (Z.to_nat years)) in
       let '(v', wt', g') := seasons_val SPORT cr ages (v, wt, g) in
       (Ok (age + Z.max 0 years, wt'),
        {| rng := g'; heap := <[r := v']> h |}))
  /\ (newPlayer = false -> years = 1 ->
     season_loop SPORT (Z.to_nat years) r years newPlayer cr (age, wt)
       {| rng := g; heap := h |}
     = let '(v', wt', g') := season_val SPORT cr (v, wt, g) age in
       (Ok (age, wt'), {| rng := g'; heap := <[r := v']> h |}))
  /\ (forall p skipPot w p' w',
        develop SPORT p years newPlayer cr skipPot w = (Ok p', w') ->
        exists r0 v0,
          last (p_ratings p) = Some r0 /\ heap w !! r0 = Some v0 /\
          let age0 := season v0 - born_year p in
          let ages := if newPlayer || (1 <? years)
                      then map (fun i => age0 + Z.of_nat i + 1)
                               (seq 0 (Z.to_nat years))
                      else repeat age0 (Z.to_nat years) in
          weight p' = (seasons_val SPORT cr ages (v0, weight p, rng w)).1.2).
Proof.
  intros Hr. split; [|split].
  - intros Hbump.
    rewrite (season_loop_ok (Z.to_nat years) r v years newPlayer cr age wt
               g h Hr).
    assert (Hb : newPlayer || (1 <? years) = true).
    { destruct Hbump as [->|Hy]; [reflexivity|].
      apply orb_true_iff. right. now apply Z.ltb_lt. }
    rewrite Hb, loop_ages_bump. cbv zeta.
    destruct (seasons_val SPORT cr _ (v, wt, g)) as [[v' wt'] g'].
    f_equal. f_equal. f_equal.
    destruct (Z.to_nat years) as [|n] eqn:Hn.
    + simpl. lia.
    + rewrite seq_S, List.map_app. cbn [map].
      rewrite List.last_last. lia.
  - intros -> ->.
    rewrite (season_loop_ok (Z.to_nat 1) r v 1 false cr age wt g h Hr).
    reflexivity.
  - intros p skipPot w p' w' Hd.
    destruct (develop_inv _ _ _ _ _ _ _ _ Hd)
      as (r0 & v0 & v1 & wt1 & g1 & w2 & v2 & Hlast & Hr0 & Hrest).
    cbv zeta in Hrest. destruct Hrest as (Hseasons & _ & _ & _ & Hwt & _).
    exists r0, v0. split; [exact Hlast|]. split; [exact Hr0|]. cbv zeta.
    destruct (newPlayer || (1 <? years)).
    + rewrite loop_ages_bump in Hseasons. now rewrite Hseasons.
    + rewrite loop_ages_keep in Hseasons. now rewrite Hseasons.
Qed.


(** C1 (amended): when the pass recomputes the potential (skipPot is false)
    and the strategy meets its interface (overall at most 100 where the
    regression clamp applies, position codes non-empty), the potential is a
    number not below the overall of the same pass: for every value
    bootstrapPot returns, in the regression branch and in the simulation
    branch, and for the overall and potential develop stores, at the chosen
    position and at every position. *)
Theorem potential_not_below_overall_when_recomputed :
  (SPORT = football -> forall (c : RatingsP) q, player_ovr c q <= 100) ->
  EmptyString ∉ POSITIONS ->
  (forall r v age pos w val w' o,
     heap w !! r = Some v ->
     current_ovr v pos = Num o ->
     (SPORT = football -> o <= 100) ->
     bootstrapPot SPORT r age pos w = (Ok val, w') ->
     at_least o val)
  /\ (forall p years newPlayer cr w p' w',
        develop SPORT p years newPlayer cr false w = (Ok p', w') ->
        exists r v',
          last (p_ratings p) = Some r /\ heap w' !! r = Some v'
          /\ (exists o q, ovr v' = Num o /\ pot v' = Num q /\ o <= q)
          /\ (SPORT <> basketball ->
              forall k, k ∈ POSITIONS ->
                exists o q, ovrs v' !! k = Some o
                            /\ pots v' !! k = Some (Num q) /\ o <= q)).
Proof.
  intros H100 Hne. split.
  { intros r v age pos w val w' o. apply bootstrapPot_at_least. }
  intros p years newPlayer cr w p' w' Hd.
  destruct (develop_inv _ _ _ _ _ _ _ _ Hd)
    as (r & v0 & v1 & wt1 & g1 & w2 & v2 & Hlast & Hr0 & Hrest).
  cbv zeta in Hrest.
  destruct Hrest as (_ & Hfin & Hr2 & Hr' & _).
  assert (Hr1 : heap {| rng := g1; heap := <[r := v1]> (heap w) |} !! r
                = Some v1).
  { apply list_lookup_insert_eq. now apply lookup_lt_Some in Hr0. }
  exists r, (set_skills (skills_of v2) v2).
  split; [exact Hlast|]. split; [exact Hr'|].
  cbn [ovr pot ovrs pots set_skills].
  destruct (decide (SPORT = basketball)) as [Hs|Hs].
  - destruct (finalize_basketball _ _ _ _ _ _ _ Hs Hr1 Hfin)
      as (v2' & Hr2' & Hovr & Hpot & _).
    rewrite Hr2 in Hr2'. inversion Hr2'; subst v2'. clear Hr2'.
    destruct Hpot as (wa & wb & Ha & Hb).
    assert (Hnf : SPORT = football -> player_ovr v1 None <= 100)
      by (intros Hf; rewrite Hf in Hs; discriminate Hs).
    destruct (bootstrapPot_at_least r _ _ None _ _ _ (player_ovr v1 None)
                Ha eq_refl Hnf Hb) as (q & Hq & Hle).
    split; [|contradiction].
    exists (player_ovr v1 None), q. now rewrite Hovr, Hq.
  - destruct (finalize_positions_stored _ _ _ _ _ _ _ Hs Hr1 Hfin)
      as (v2' & sel & Hr2' & Hmap & Hel & (pre & post & Hpos & _) & Hovr
          & Hpot & _ & Hout & Hin).
    rewrite Hr2 in Hr2'. inversion Hr2'; subst v2'. clear Hr2'.
    assert (Hall : forall k, k ∈ POSITIONS ->
              exists q, pots v2 !! k = Some (Num q)
                        /\ player_ovr v1 (Some k) <= q).
    { intros k Hk. destruct (Hin k Hk) as (val & Hval & wa & wb & Ha & Hb).
      assert (Hk' : k <> EmptyString) by (intros ->; contradiction).
      assert (Hcur : current_ovr (set_ovrs (ovrs v2) v1) (Some k)
                     = Num (player_ovr v1 (Some k))).
      { rewrite current_ovr_nonempty by exact Hk'.
        unfold ovrs_at. cbn [ovrs set_ovrs]. rewrite Hmap.
        now rewrite decide_True. }
      assert (Hcap : SPORT = football -> player_ovr v1 (Some k) <= 100)
        by (intros Hf; now apply H100).
      destruct (bootstrapPot_at_least _ _ _ _ _ _ _ _ Ha Hcur Hcap Hb)
        as (q & Hq & Hle).
      exists q. now rewrite Hval, Hq. }
    split.
    + assert (Hsel : sel ∈ POSITIONS).
      { rewrite Hpos. apply elem_of_app. right. now left. }
      destruct (Hall sel Hsel) as (q & Hq & Hle).
      exists (player_ovr v1 (Some sel)), q. rewrite Hovr, Hpot.
      unfold pots_at. now rewrite Hq.
    + intros _ k Hk. destruct (Hall k Hk) as (q & Hq & Hle).
      exists (player_ovr v1 (Some k)), q. rewrite Hmap.
      now rewrite decide_True.
Qed.


Lemma eligible_iff q : eligible q <-> q <> "KR" /\ q <> "PR".
Proof.
  unfold eligible, includes, bannedPositions. cbn [existsb].
  rewrite orb_false_r, orb_false_iff.
  split.
  - intros [H1 H2]. split; intros ->; now rewrite String.eqb_refl in *.
  - intros [H1 H2]. split; now apply String.eqb_neq.
Qed.

(** C8: in the multi-position branch develop stores an overall for every
    position code of the strategy, the banned codes KR and PR and the codes
    that lose the comparison included, and (when skipPot is false) a
    potential for every code; the position it selects is a code other than KR
    and PR whose overall is maximal among those codes (the first such code
    in the list), and the stored overall and potential are the entries at
    that code.  The call returns whenever the list has a code other than
    KR and PR and, for the regression table, only codes of the table. *)
Theorem develop_rates_every_position_and_bans_KR_PR
    p r v0 years newPlayer cr skipPot w :
  SPORT <> basketball ->
  last (p_ratings p) = Some r ->
  heap w !! r = Some v0 ->
  let age0 := season v0 - born_year p in
  let ages := loop_ages (Z.to_nat years) age0 (newPlayer || (1 <? years)) in
  let v1 := (seasons_val SPORT cr ages (v0, weight p, rng w)).1.1 in
  ((exists q, q ∈ POSITIONS /\ q <> "KR" /\ q <> "PR") ->
   (SPORT = football -> skipPot = false ->
      forall k, k ∈ POSITIONS -> is_Some (coeffsByPos !! k)) ->
   exists p' w', develop SPORT p years newPlayer cr skipPot w = (Ok p', w'))
  /\ forall p' w',
       develop SPORT p years newPlayer cr skipPot w = (Ok p', w') ->
       exists v' sel,
         heap w' !! r = Some v'
         /\ (forall k, k ∈ POSITIONS ->
               ovrs v' !! k = Some (player_ovr v1 (Some k)))
         /\ (skipPot = false ->
             forall k, k ∈ POSITIONS -> is_Some (pots v' !! k))
         /\ sel ∈ POSITIONS /\ sel <> "KR" /\ sel <> "PR"
         /\ (forall q, q ∈ POSITIONS -> q <> "KR" -> q <> "PR" ->
               player_ovr v1 (Some q) <= player_ovr v1 (Some sel))
         /\ (exists pre post, POSITIONS = pre ++ sel :: post
               /\ forall q, q ∈ pre -> q <> "KR" -> q <> "PR" ->
                    player_ovr v1 (Some q) < player_ovr v1 (Some sel))
         /\ ovr v' = Num (player_ovr v1 (Some sel))
         /\ pot v' = pots_at v' sel
         /\ pos v' = override_or p sel.
Proof.
  intros Hs Hlast Hr0 age0 ages v1. split.
  { intros (q & Hq & Hkr & Hpr) Hcfg.
    apply (develop_returns p r v0 years newPlayer cr skipPot w Hlast Hr0);
      [|exact Hcfg].
    intros _. exists q. split; [exact Hq|]. now apply eligible_iff. }
  intros p' w' Hd.
  destruct (develop_inv _ _ _ _ _ _ _ _ Hd)
    as (r' & v0' & v1' & wt1 & g1 & w2 & v2 & Hlast' & Hr0' & Hrest).
  rewrite Hlast in Hlast'. inversion Hlast'; subst r'. clear Hlast'.
  rewrite Hr0 in Hr0'. inversion Hr0'; subst v0'. clear Hr0'.
  cbv zeta in Hrest.
  destruct Hrest as (Hseasons & Hfin & Hr2 & Hr' & _).
  assert (Hv1 : v1 = v1').
  { unfold v1, ages, age0. now rewrite Hseasons. }
  clearbody v1. subst v1'.
  assert (Hr1 : heap {| rng := g1; heap := <[r := v1]> (heap w) |} !! r
                = Some v1).
  { apply list_lookup_insert_eq. now apply lookup_lt_Some in Hr0. }
  destruct (finalize_positions_stored _ _ _ _ _ _ _ Hs Hr1 Hfin)
    as (v2' & sel & Hr2' & Hmap & Hel & (pre & post & Hpos & Hpre & Hpost)
        & Hov & Hpot & Hps & Hpots).
  rewrite Hr2 in Hr2'. inversion Hr2'; subst v2'. clear Hr2'.
  assert (Hsel : sel ∈ POSITIONS).
  { rewrite Hpos. apply elem_of_app. right. now left. }
  apply eligible_iff in Hel as [Hkr Hpr].
  exists (set_skills (skills_of v2) v2), sel.
  split; [exact Hr'|].
  change (pots_at (set_skills (skills_of v2) v2) sel) with (pots_at v2 sel).
  cbn [ovr pot ovrs pots pos set_skills].
  split. { intros k Hk. rewrite Hmap. now rewrite decide_True. }
  split.
  { intros ->. destruct Hpots as [_ Hin]. intros k Hk.
    destruct (Hin k Hk) as (val & Hval & _). now exists val. }
  split; [exact Hsel|]. split; [exact Hkr|]. split; [exact Hpr|].
  split.
  { intros q Hq Hq1 Hq2.
    assert (Helq : eligible q) by now apply eligible_iff.
    rewrite Hpos in Hq. apply elem_of_app in Hq as [Hq|Hq].
    - specialize (Hpre q Hq Helq). lia.
    - apply elem_of_cons in Hq as [->|Hq]; [lia|]. now apply Hpost. }
  split.
  { exists pre, post. split; [exact Hpos|].
    intros q Hq Hq1 Hq2. apply Hpre; [exact Hq|]. now apply eligible_iff. }
  now repeat split.
Qed.


End Properties.

(** ** Concrete runs *)

Lemma demo_ovr_range (c : Ratings Z) (q : option string) :
  0 <= player_ovr (Overrides := Demo.strategy) c q <= 100.
Proof. apply bound_range. lia. Qed.

Lemma demo_codes_nonempty :
  EmptyString ∉ POSITIONS (Overrides := Demo.strategy).
Proof. intros H. repeat (apply elem_of_cons in H as [H|H]; [discriminate H|]).
  now apply elem_of_nil in H. Qed.

Lemma demo_has_eligible (SPORT : Sport) :
  SPORT <> basketball ->
  exists q, q ∈ POSITIONS (Overrides := Demo.strategy) /\ eligible q.
Proof. intros _. exists "QB". split; [now left|reflexivity]. Qed.

Lemma demo_codes_in_table k :
  k ∈ POSITIONS (Overrides := Demo.strategy) -> is_Some (coeffsByPos !! k).
Proof.
  intros H.
  repeat (apply elem_of_cons in H as [->|H]; [eexists; reflexivity|]).
  now apply elem_of_nil in H.
Qed.

(** Against C1 as stated: a football pass with skipPot = true for a player
    whose overall rises from 50 to 60 keeps the potential stored before the
    pass: ratings.pot = ratings.pots[pos] reads the old mapping, and the
    snapshot ends with overall 60 and potential 55. *)
Lemma develop_skipPot_stores_stale_potential :
  exists p' w' v',
    develop (Ov := Demo.strategy) football (Demo.player None) 1 false 15.5
      true Demo.w0 = (Ok p', w')
    /\ heap w' !! 0%nat = Some v'
    /\ ovr v' = Num 60 /\ pot v' = Num 55 /\ 55 < 60.
Proof.
  eexists _, _, _. split; [vm_compute; reflexivity|].
  split; [vm_compute; reflexivity|].
  split; [reflexivity|]. split; [reflexivity|lia].
Qed.


(** The example snapshot at 30 without a position, and at 29 for the
    position KR under the regression estimator. *)
Lemma bootstrapPot_at_29_witness :
  bootstrapPot (Ov := Demo.strategy) basketball 0%nat 30 None Demo.w0
  = (Ok (Num 50), Demo.w0)
  /\ bootstrapPot (Ov := Demo.strategy) football 0%nat 29 (Some "KR") Demo.w0
     = (Ok (Num 55), Demo.w0).
Proof.
  split.
  - exact (proj1 (bootstrapPot_at_29_is_current_overall basketball 0%nat
                    Demo.snapshot 30 None Demo.w0 ltac:(lia) eq_refl)).
  - exact (proj1 (bootstrapPot_at_29_is_current_overall football 0%nat
                    Demo.snapshot 29 (Some "KR") Demo.w0 ltac:(lia) eq_refl)).
Defined.

(** The twenty trials on the example snapshot at age 27. *)
Lemma bootstrapPot_index_15_witness :
  exists maxOvrs copies g' val,
    trials_val (Ov := Demo.strategy) 20 Demo.snapshot 27 None 0%nat
    = (maxOvrs, copies, g')
    /\ length maxOvrs = 20%nat
    /\ orderBy maxOvrs !! 15%nat = Some val
    /\ bootstrapPot (Ov := Demo.strategy) basketball 0%nat 27 None Demo.w0
       = (Ok val, {| rng := g'; heap := heap Demo.w0 ++ copies |}).
Proof.
  destruct (bootstrapPot_takes_index_15_of_20_sorted (Ov := Demo.strategy)
              basketball 0%nat Demo.snapshot 27 None Demo.w0
              eq_refl ltac:(lia) eq_refl)
    as (ms & cs & g' & val & H1 & _ & H3 & _ & _ & _ & _ & H8 & H9).
  exists ms, cs, g', val. auto.
Defined.


(** On the example snapshot, three seasons of a new player end at age 23,
    one season of an existing player stays at age 20. *)
Lemma develop_loop_age_witness :
  (season_loop (Ov := Demo.strategy) otherSport (Z.to_nat 3) 0%nat 3 true
     15.5 (20, 200) Demo.w0).1 = Ok (23, 200)
  /\ (season_loop (Ov := Demo.strategy) otherSport (Z.to_nat 1) 0%nat 1 false
        15.5 (20, 200) Demo.w0).1 = Ok (20, 200).
Proof.
  destruct (develop_loop_age_bookkeeping (Ov := Demo.strategy) otherSport
              0%nat Demo.snapshot 3 true 15.5 20 200 0%nat [Demo.snapshot]
              eq_refl) as (H3 & _ & _).
  destruct (develop_loop_age_bookkeeping (Ov := Demo.strategy) otherSport
              0%nat Demo.snapshot 1 false 15.5 20 200 0%nat [Demo.snapshot]
              eq_refl) as (_ & H1 & _).
  split.
  - change Demo.w0 with {| rng := 0%nat; heap := [Demo.snapshot] |}.
    rewrite (H3 (or_introl eq_refl)). reflexivity.
  - change Demo.w0 with {| rng := 0%nat; heap := [Demo.snapshot] |}.
    rewrite (H1 eq_refl eq_refl). reflexivity.
Defined.


(** The example player, football, potential recomputed. *)
Lemma potential_not_below_overall_witness :
  exists p' w' r v' o q,
    develop (Ov := Demo.strategy) football (Demo.player None) 1 false 15.5
      false Demo.w0 = (Ok p', w')
    /\ heap w' !! r = Some v' /\ ovr v' = Num o /\ pot v' = Num q /\ o <= q.
Proof.
  destruct (develop_returns (Ov := Demo.strategy) football (Demo.player None)
              0%nat Demo.snapshot 1 false 15.5 false Demo.w0 eq_refl eq_refl
              (demo_has_eligible football)
              (fun _ _ => demo_codes_in_table)) as (p' & w' & Hd).
  destruct (potential_not_below_overall_when_recomputed
              (Ov := Demo.strategy) football
              (fun _ c q => proj2 (demo_ovr_range c q)) demo_codes_nonempty)
    as [_ Hdev].
  destruct (Hdev _ _ _ _ _ _ _ Hd)
    as (r & v' & _ & Hr & (o & q & Ho & Hq & Hle) & _).
  exists p', w', r, v', o, q. auto.
Defined.


(** On the example player, KR, PR and the losing RB have entries, and the
    stored position is neither KR nor PR. *)
Lemma develop_rates_every_position_witness :
  exists p' w' v' sel,
    develop (Ov := Demo.strategy) football (Demo.player None) 1 false 15.5
      false Demo.w0 = (Ok p', w')
    /\ heap w' !! 0%nat = Some v'
    /\ is_Some (ovrs v' !! "KR") /\ is_Some (ovrs v' !! "PR")
    /\ is_Some (pots v' !! "KR") /\ is_Some (pots v' !! "PR")
    /\ is_Some (ovrs v' !! "RB")
    /\ sel <> "KR" /\ sel <> "PR" /\ pos v' = sel.
Proof.
  destruct (develop_rates_every_position_and_bans_KR_PR
              (Ov := Demo.strategy) football (Demo.player None) 0%nat
              Demo.snapshot 1 false 15.5 false Demo.w0
              ltac:(discriminate) eq_refl eq_refl) as [Hret Hall].
  destruct Hret as (p' & w' & Hd).
  { exists "QB". repeat split; [now left|discriminate|discriminate]. }
  { intros _ _. exact demo_codes_in_table. }
  destruct (Hall p' w' Hd)
    as (v' & sel & Hr & Hov & Hpo & _ & Hkr & Hpr & _ & _ & _ & _ & Hps).
  assert (Hin : forall k, k ∈ ["QB"; "RB"; "KR"; "PR"] ->
                          k ∈ POSITIONS (Overrides := Demo.strategy))
    by (intros k Hk; exact Hk).
  exists p', w', v', sel.
  split; [exact Hd|]. split; [exact Hr|].
  split. { rewrite Hov; [eauto|]. apply Hin. do 2 right. now left. }
  split. { rewrite Hov; [eauto|]. apply Hin. do 3 right. now left. }
  split. { apply (Hpo eq_refl). apply Hin. do 2 right. now left. }
  split. { apply (Hpo eq_refl). apply Hin. do 3 right. now left. }
  split. { rewrite Hov; [eauto|]. apply Hin. right. now left. }
  split; [exact Hkr|]. split; [exact Hpr|]. exact Hps.
Defined.


(** ** Further properties *)

Section Further.

Context {G Attrs : Type} {Ov : Overrides G Attrs}.
Variable SPORT : Sport.

Abbreviation RatingsF := (Ratings Attrs).
Abbreviation MF := (@M G Attrs).
Abbreviation worldF := (world G Attrs).

Implicit Types (w : worldF) (r : loc) (v : RatingsF) (g : G)
  (age : Z) (pos : option string) (I : RatingsF -> Prop) (E : error -> Prop).

(** *** Footprints compose *)

Lemma only_touches_refl r w : only_touches r w w.
Proof. split; [lia|auto]. Qed.

Lemma only_touches_trans r w1 w2 w3 :
  only_touches r w1 w2 -> only_touches r w2 w3 -> only_touches r w1 w3.
Proof.
  intros [Hl1 H1] [Hl2 H2]. split; [lia|].
  intros r' Hne Hlt. rewrite H2 by (auto; lia). now apply H1.
Qed.

Lemma only_touches_write r w x :
  only_touches r w {| rng := rng w; heap := <[r := x]> (heap w) |}.
Proof.
  split; cbn [heap]; [now rewrite length_insert|].
  intros r' Hne _. now apply list_lookup_insert_ne.
Qed.

Lemma only_touches_extend r w g' (cs : list RatingsF) :
  only_touches r w {| rng := g'; heap := heap w ++ cs |}.
Proof.
  split; cbn [heap]; [rewrite length_app; lia|].
  intros r' _ Hlt. now apply lookup_app_l.
Qed.

Lemma spec_ret {T} r I E (x : T) : spec_at r I E (ret x : MF T).
Proof.
  intros w v Hr. cbn. split; [apply only_touches_refl|].
  split; [eauto|discriminate].
Qed.

Lemma spec_throw {T} r I E e : E e -> spec_at r I E (throw e : MF T).
Proof.
  intros He w v Hr. cbn. split; [apply only_touches_refl|].
  split; [eauto|]. intros e' [= <-]. exact He.
Qed.

Lemma spec_bind {T U} r I E (c : MF T) (k : T -> MF U) :
  spec_at r I E c -> (forall x, spec_at r I E (k x)) ->
  spec_at r I E (bind c k).
Proof.
  intros Hc Hk w v Hr. destruct (Hc w v Hr) as (Ht & (v1 & Hr1 & HI1) & He).
  unfold bind. destruct (c w) as [[x|e] w1]; cbn [fst snd] in *.
  - destruct (Hk x w1 v1 Hr1) as (Ht2 & (v2 & Hr2 & HI2) & He2).
    split; [now apply only_touches_trans with w1|].
    split; [exists v2; auto|exact He2].
  - split; [exact Ht|]. split; [eauto|].
    intros e' [= <-]. now apply He.
Qed.

Lemma spec_readRatings r I E : spec_at r I E (readRatings r : MF RatingsF).
Proof.
  intros w v Hr. rewrite (readRatings_ok r v w Hr). cbn.
  split; [apply only_touches_refl|]. split; [eauto|discriminate].
Qed.

Lemma spec_modifyRatings r I E (f : RatingsF -> RatingsF) :
  (forall v, I v -> I (f v)) -> spec_at r I E (modifyRatings r f : MF unit).
Proof.
  intros Hf w v Hr. rewrite (modifyRatings_ok r f v w Hr). cbn [fst snd].
  split; [apply only_touches_write|]. split; [|discriminate].
  exists (f v). split; [|auto]. cbn [heap].
  apply list_lookup_insert_eq. now apply lookup_lt_Some in Hr.
Qed.

Lemma spec_draw {T} r I E (f : G -> T * G) : spec_at r I E (draw f : MF T).
Proof.
  intros w v Hr. unfold draw. destruct (f (rng w)) as [x g']. cbn [fst snd].
  split; [split; cbn [heap]; [lia|auto]|].
  split; [exists v; auto|discriminate].
Qed.

Lemma developSeasonAt_ok r v age cr w :
  heap w !! r = Some v ->
  developSeasonAt r age cr w
  = (Ok tt, {| rng := (developSeason v age cr (rng w)).2;
               heap := <[r := (developSeason v age cr (rng w)).1]> (heap w) |}).
Proof.
  intros Hr. unfold developSeasonAt.
  rewrite (bind_ok _ _ _ _ _ (readRatings_ok _ _ _ Hr)).
  unfold bind, draw, writeRatings.
  now destruct (developSeason v age cr (rng w)).
Qed.

Lemma spec_developSeasonAt r I E age cr :
  (forall v a c g, I v -> I (developSeason v a c g).1) ->
  spec_at r I E (developSeasonAt r age cr).
Proof.
  intros HI w v Hr. rewrite (developSeasonAt_ok r v age cr w Hr).
  cbn [fst snd]. split; [apply only_touches_write|]. split; [|discriminate].
  eexists. cbn [heap].
  split; [apply list_lookup_insert_eq; now apply lookup_lt_Some in Hr|].
  apply HI.
Qed.

Lemma spec_weaken {T} r I E E' (c : MF T) :
  (forall e, E e -> E' e) -> spec_at r I E c -> spec_at r I E' c.
Proof.
  intros HE Hc w v Hr. destruct (Hc w v Hr) as (Ht & Hv & He).
  split; [exact Ht|]. split; [exact Hv|]. intros e Hthrow. apply HE, He, Hthrow.
Qed.

(** bootstrapPot leaves every existing object as it is; on a live object it
    throws only the two errors of the regression branch, and each only in
    the situation the source checks for. *)
Lemma spec_bootstrapPot r I E age pos :
  (SPORT = football -> age < 29 -> pos = None -> E PosRequired) ->
  (forall p, SPORT = football -> age < 29 -> pos = Some p ->
             coeffsByPos !! p = None -> E (InvalidPosition p)) ->
  spec_at r I E (bootstrapPot SPORT r age pos).
Proof.
  intros Hnone Hbad w v Hr.
  destruct (bootstrapPot_frame SPORT r age pos w) as [cs Hcs].
  split; [|split].
  - destruct (bootstrapPot SPORT r age pos w) as [res w']. cbn [snd] in *.
    split; [rewrite Hcs, length_app; lia|].
    intros r' _ Hlt. rewrite Hcs. now apply lookup_app_l.
  - exists v. split; [|auto]. rewrite Hcs. now apply lookup_extend.
  - intros e He.
    destruct (Z.le_gt_cases 29 age) as [Ha|Ha].
    { rewrite (bootstrapPot_old SPORT r v age pos w Ha Hr) in He.
      discriminate He. }
    destruct (potEstimator SPORT) as [est|] eqn:Hest.
    + assert (Hs : SPORT = football) by (now destruct SPORT).
      destruct pos as [p|].
      * destruct (coeffsByPos !! p) as [coeffs|] eqn:Hc.
        -- rewrite (bootstrapPot_regression SPORT r v age p coeffs w Hs)
             in He by (assumption || lia).
           cbv zeta in He. destruct (randInt (-2) 2 (rng w)).
           discriminate He.
        -- rewrite (bootstrapPot_invalid SPORT r v age p w Hs) in He
             by (assumption || lia).
           inversion He; subst e. apply Hbad; auto; lia.
      * rewrite (bootstrapPot_no_pos SPORT r age w Hs) in He by lia.
        inversion He; subst e. apply Hnone; auto; lia.
    + rewrite (bootstrapPot_simulated SPORT r v age pos w Hest) in He
        by (assumption || lia).
      destruct (trials_val _ v age pos (rng w)) as [[ms cs'] g'].
      discriminate He.
Qed.

(** *** Footprint of develop *)

Lemma spec_season_step r I E years newPlayer cr st :
  (forall v a c g, I v -> I (developSeason v a c g).1) ->
  spec_at r I E (season_step SPORT r years newPlayer cr st).
Proof.
  intros HI. unfold season_step. destruct st as [a wt].
  apply spec_bind; [now apply spec_developSeasonAt|]. intros _.
  destruct SPORT; try apply spec_ret.
  apply spec_bind; [apply spec_readRatings|]. intros x.
  apply spec_bind; [apply spec_draw|]. intros nw. apply spec_ret.
Qed.

Lemma spec_season_loop r I E years newPlayer cr n : forall st,
  (forall v a c g, I v -> I (developSeason v a c g).1) ->
  spec_at r I E (season_loop SPORT n r years newPlayer cr st).
Proof.
  induction n as [|n IH]; intros st HI; cbn [season_loop].
  - apply spec_ret.
  - apply spec_bind; [now apply spec_season_step|]. intros st'. now apply IH.
Qed.

Lemma spec_pots_reduce r I E age l : forall acc,
  (forall p, p ∈ l -> SPORT = football -> age < 29 ->
             coeffsByPos !! p = None -> E (InvalidPosition p)) ->
  spec_at r I E (foldM (pots_step SPORT r age) l acc).
Proof.
  induction l as [|x l IH]; intros acc HE; cbn [foldM].
  - apply spec_ret.
  - apply spec_bind.
    + unfold pots_step. apply spec_bind; [|intros y; apply spec_ret].
      apply spec_bootstrapPot; [discriminate|].
      intros p Hs Ha [= <-] Hc. apply HE; auto. now left.
    + intros acc'. apply IH. intros p Hp. apply HE. now right.
Qed.

Lemma spec_finalize r I E p age skipPot :
  kept_by_assignments I ->
  (SPORT <> basketball -> (forall q, q ∈ POSITIONS -> ~ eligible q) ->
   E ShouldNeverHappen) ->
  (forall q, SPORT = football -> skipPot = false -> age < 29 ->
             q ∈ POSITIONS -> coeffsByPos !! q = None ->
             E (InvalidPosition q)) ->
  spec_at r I E (finalize SPORT p r age skipPot).
Proof.
  intros HI Hnever Hbad.
  assert (Hset : forall (f : RatingsF -> RatingsF),
            (forall v, I v -> I (f v)) ->
            spec_at r I E (modifyRatings r f : MF unit))
    by (intros f Hf; now apply spec_modifyRatings).
  destruct (decide (SPORT = basketball)) as [Hs|Hs].
  - assert (Hfin : finalize SPORT p r age skipPot
                   = finalize_single SPORT p r age skipPot)
      by (unfold finalize; now rewrite Hs).
    rewrite Hfin. unfold finalize_single.
    apply spec_bind; [apply Hset; intros v Hv; now apply HI|]. intros _.
    apply spec_bind; [|intros _; apply Hset; intros v Hv; now apply HI].
    destruct skipPot; [apply spec_ret|].
    apply spec_bind; [|intros y; apply Hset; intros v Hv; now apply HI].
    apply spec_bootstrapPot.
    + intros Hf. rewrite Hf in Hs. discriminate Hs.
    + intros q Hf. rewrite Hf in Hs. discriminate Hs.
  - assert (Hfin : finalize SPORT p r age skipPot
                   = finalize_multi SPORT p r age skipPot)
      by (unfold finalize; now destruct SPORT).
    rewrite Hfin. unfold finalize_multi.
    apply spec_bind; [apply spec_readRatings|]. intros x.
    pose proof (ovrs_reduce_inv x) as Hinv.
    destruct (fold_left (ovrs_step x) POSITIONS (∅, None, None))
      as [[ovrs' pos'] mx].
    destruct Hinv as [_ Hsel].
    apply spec_bind; [apply Hset; intros v Hv; now apply HI|]. intros _.
    apply spec_bind.
    + destruct skipPot; [apply spec_ret|].
      apply spec_bind; [|intros y; apply Hset; intros v Hv; now apply HI].
      apply spec_pots_reduce. intros q Hq Hf Ha Hc. now apply Hbad.
    + intros _. destruct pos' as [sel|].
      * apply spec_bind; [apply Hset; intros v Hv; now apply HI|]. intros _.
        apply spec_bind; [apply Hset; intros v Hv; now apply HI|]. intros _.
        apply Hset; intros v Hv; now apply HI.
      * apply spec_throw. apply Hnever; [exact Hs|].
        destruct mx; [contradiction|exact Hsel].
Qed.

Lemma spec_develop r I E p years newPlayer cr skipPot :
  last (p_ratings p) = Some r ->
  kept_by_assignments I ->
  (forall v a c g, I v -> I (developSeason v a c g).1) ->
  (SPORT <> basketball -> (forall q, q ∈ POSITIONS -> ~ eligible q) ->
   E ShouldNeverHappen) ->
  (forall q, SPORT = football -> skipPot = false ->
             q ∈ POSITIONS -> coeffsByPos !! q = None ->
             E (InvalidPosition q)) ->
  spec_at r I E (develop SPORT p years newPlayer cr skipPot).
Proof.
  intros Hlast HI Hdev Hnever Hbad. unfold develop. rewrite Hlast.
  apply spec_bind; [apply spec_readRatings|]. intros x0.
  apply spec_bind; [now apply spec_season_loop|]. intros [a wt].
  apply spec_bind.
  { apply spec_finalize; auto. }
  intros _.
  apply spec_bind; [apply spec_modifyRatings; intros v Hv; now apply HI|].
  intros _. apply spec_bind; [apply spec_readRatings|]. intros x.
  apply spec_ret.
Qed.

Lemma not_eligible q : ~ eligible q <-> q = "KR" \/ q = "PR".
Proof.
  rewrite eligible_iff. split.
  - intros Hn. destruct (decide (q = "KR")) as [|H1]; [now left|].
    destruct (decide (q = "PR")) as [|H2]; [now right|].
    exfalso. now apply Hn.
  - intros [->| ->] [H1 H2]; contradiction.
Qed.

(** X1: develop writes to the last row of p.ratings and to nothing else that
    existed before the call: every earlier row, and every other ratings
    object, holds the value it held before, whether the call returns or
    throws. *)
Theorem develop_touches_only_the_last_row
    p years newPlayer cr skipPot w r' :
  (r' < length (heap w))%nat ->
  last (p_ratings p) <> Some r' ->
  heap (develop SPORT p years newPlayer cr skipPot w).2 !! r'
  = heap w !! r'.
Proof.
  intros Hlt Hne.
  destruct (last (p_ratings p)) as [r|] eqn:Hlast.
  - destruct (heap w !! r) as [v|] eqn:Hr.
    + assert (Hkept : kept_by_assignments (fun _ : RatingsF => True))
        by (intros x _; repeat split).
      assert (Hspec : spec_at r (fun _ => True) (fun _ => True)
                        (develop SPORT p years newPlayer cr skipPot))
        by (apply spec_develop; auto).
      destruct (Hspec w v Hr) as ([_ Hframe] & _).
      apply Hframe; [|exact Hlt]. intros ->. now apply Hne.
    + unfold develop. rewrite Hlast.
      now rewrite (bind_throw _ _ _ _ _ (readRatings_none _ _ Hr)).
  - unfold develop. now rewrite Hlast.
Qed.

(** X2: on a player whose last ratings row is live, develop throws only two
    errors.  "Should never happen" is thrown only in the multi-position
    branch when every position code is KR or PR; the invalid-position error
    is thrown only for football with skipPot false, and it names a code of
    POSITIONS that the coefficient table lacks.  It never throws the
    position-required error or a type error, and the single-position branch
    never throws. *)
Theorem develop_throws_only_two_errors
    p years newPlayer cr skipPot w r v e :
  last (p_ratings p) = Some r ->
  heap w !! r = Some v ->
  (develop SPORT p years newPlayer cr skipPot w).1 = Throw e ->
  (e = ShouldNeverHappen /\ SPORT <> basketball
   /\ forall q, q ∈ POSITIONS -> q = "KR" \/ q = "PR")
  \/ (exists q, e = InvalidPosition q /\ SPORT = football /\ skipPot = false
                /\ q ∈ POSITIONS /\ coeffsByPos !! q = None).
Proof.
  intros Hlast Hr He.
  set (E := fun e : error =>
    (e = ShouldNeverHappen /\ SPORT <> basketball
     /\ forall q, q ∈ POSITIONS -> q = "KR" \/ q = "PR")
    \/ (exists q, e = InvalidPosition q /\ SPORT = football
                  /\ skipPot = false /\ q ∈ POSITIONS
                  /\ coeffsByPos !! q = None)).
  assert (Hkept : kept_by_assignments (fun _ : RatingsF => True))
    by (intros x _; repeat split).
  assert (Hspec : spec_at r (fun _ => True) E
                    (develop SPORT p years newPlayer cr skipPot)).
  { apply spec_develop; auto.
    - intros Hs Hall. left. repeat split; auto.
      intros q Hq. now apply not_eligible, Hall.
    - intros q Hs Hk Hq Hc. right. exists q. auto. }
  destruct (Hspec w v Hr) as (_ & _ & Herr). now apply Herr.
Qed.

(** X3: after the season loop develop only assigns ovr, pot, ovrs, pots, pos
    and skills: the season, hgt, stre and the other rating attributes of the
    snapshot it returns with are those the loop left.  With years <= 0 no
    season is applied, so they are those of the snapshot on entry, the weight
    is unchanged, and the overalls are computed from the entry snapshot. *)
Theorem develop_assigns_only_derived_fields
    p years newPlayer cr skipPot w p' w' :
  develop SPORT p years newPlayer cr skipPot w = (Ok p', w') ->
  exists r v0 v',
    last (p_ratings p) = Some r /\ heap w !! r = Some v0
    /\ heap w' !! r = Some v'
    /\ let age0 := season v0 - born_year p in
       let ages := loop_ages (Z.to_nat years) age0
                     (newPlayer || (1 <? years)) in
       let v1 := (seasons_val SPORT cr ages (v0, weight p, rng w)).1.1 in
       season v' = season v1 /\ hgt v' = hgt v1 /\ stre v' = stre v1
       /\ attrs v' = attrs v1
       /\ (years <= 0 ->
           v1 = v0 /\ weight p' = weight p
           /\ (SPORT = basketball -> ovr v' = Num (player_ovr v0 None))
           /\ (SPORT <> basketball ->
               forall k, k ∈ POSITIONS ->
                 ovrs v' !! k = Some (player_ovr v0 (Some k)))).
Proof.
  intros Hd.
  destruct (develop_inv SPORT _ _ _ _ _ _ _ _ Hd)
    as (r & v0 & v1 & wt1 & g1 & w2 & v2 & Hlast & Hr0 & Hrest).
  cbv zeta in Hrest.
  destruct Hrest as (Hseasons & Hfin & Hr2 & Hr' & Hwt & _).
  exists r, v0, (set_skills (skills_of v2) v2).
  split; [exact Hlast|]. split; [exact Hr0|]. split; [exact Hr'|].
  cbv zeta. rewrite Hseasons. cbn [fst snd].
  assert (Hr1 : heap {| rng := g1; heap := <[r := v1]> (heap w) |} !! r
                = Some v1).
  { apply list_lookup_insert_eq. now apply lookup_lt_Some in Hr0. }
  set (I := fun x : RatingsF =>
              season x = season v1 /\ hgt x = hgt v1 /\ stre x = stre v1
              /\ attrs x = attrs v1).
  assert (Hkept : kept_by_assignments I).
  { intros x Hx. repeat split; intros; apply Hx. }
  match type of Hfin with
  | finalize _ _ _ ?a _ _ = _ =>
      assert (Hspec : spec_at r I (fun _ => True)
                        (finalize SPORT p r a skipPot))
        by (apply spec_finalize; auto)
  end.
  destruct (Hspec _ v1 Hr1) as (_ & (v2' & Hv2' & HI) & _).
  rewrite Hfin in Hv2'. cbn [snd] in Hv2'. rewrite Hr2 in Hv2'.
  inversion Hv2'; subst v2'. clear Hv2'.
  destruct HI as (H1 & H2 & H3 & H4); [repeat split|].
  cbn [season hgt stre attrs set_skills].
  split; [exact H1|]. split; [exact H2|]. split; [exact H3|].
  split; [exact H4|].
  intros Hy. replace (Z.to_nat years) with 0%nat in Hseasons by lia.
  cbn in Hseasons. injection Hseasons as <- Hw <-. rewrite <- Hw in Hwt.
  split; [reflexivity|]. split; [exact Hwt|]. split.
  - intros Hs.
    destruct (finalize_basketball SPORT _ _ _ _ _ _ _ Hs Hr1 Hfin)
      as (v2' & Hv2' & Hov & _).
    rewrite Hr2 in Hv2'. inversion Hv2'; subst v2'. exact Hov.
  - intros Hs k Hk.
    destruct (finalize_positions_stored SPORT _ _ _ _ _ _ _ Hs Hr1 Hfin)
      as (v2' & sel & Hv2' & Hmap & _).
    rewrite Hr2 in Hv2'. inversion Hv2'; subst v2'.
    cbn [ovrs set_skills]. rewrite Hmap. now rewrite decide_True.
Qed.

(** *** The error of the position selection *)

Lemma table_has_banned q : q = "KR" \/ q = "PR" -> is_Some (coeffsByPos !! q).
Proof. intros [->| ->]; eexists; reflexivity. Qed.

Lemma finalize_without_eligible p r v age skipPot w :
  SPORT <> basketball ->
  heap w !! r = Some v ->
  (forall q, q ∈ POSITIONS -> q = "KR" \/ q = "PR") ->
  exists w' v',
    finalize SPORT p r age skipPot w = (Throw ShouldNeverHappen, w')
    /\ heap w' !! r = Some v'
    /\ (forall k, ovrs v' !! k
                  = if decide (k ∈ POSITIONS)
                    then Some (player_ovr v (Some k)) else None)
    /\ (skipPot = true -> pots v' = pots v)
    /\ ovr v' = ovr v /\ pot v' = pot v /\ pos v' = pos v.
Proof.
  intros Hs Hr Hall.
  assert (Hfin : finalize SPORT p r age skipPot
                 = finalize_multi SPORT p r age skipPot)
    by (unfold finalize; now destruct SPORT).
  rewrite Hfin. unfold finalize_multi.
  rewrite (bind_ok _ _ _ _ _ (readRatings_ok _ _ _ Hr)).
  pose proof (ovrs_reduce_inv v) as Hinv.
  destruct (fold_left (ovrs_step v) POSITIONS (∅, None, None))
    as [[ovrs' pos'] mx].
  destruct Hinv as [Hmap Hsel].
  destruct pos' as [sel|].
  { destruct mx as [m|]; [|contradiction].
    destruct Hsel as (_ & Hel & pre & post & Hpos & _).
    exfalso. apply (proj2 (not_eligible sel)); [|exact Hel].
    apply Hall. rewrite Hpos. apply elem_of_app. right. now left. }
  rewrite (bind_ok _ _ _ _ _ (modifyRatings_ok r _ v w Hr)).
  set (w1 := {| rng := rng w; heap := <[r := set_ovrs ovrs' v]> (heap w) |}).
  assert (Hr1 : heap w1 !! r = Some (set_ovrs ovrs' v)).
  { apply list_lookup_insert_eq. now apply lookup_lt_Some in Hr. }
  destruct skipPot.
  - rewrite (bind_ok _ _ _ tt w1) by reflexivity.
    exists w1, (set_ovrs ovrs' v). split; [reflexivity|].
    split; [exact Hr1|]. cbn. repeat split; auto.
  - destruct (pots_reduce_returns SPORT r _ age POSITIONS ∅ w1 Hr1)
      as (pots' & w2 & Hp).
    { intros _ _ k Hk. now apply table_has_banned, Hall. }
    destruct (pots_reduce SPORT r _ age POSITIONS ∅ w1 _ _ Hr1 Hp)
      as ([cs Hcs] & _).
    assert (Hr2 : heap w2 !! r = Some (set_ovrs ovrs' v)).
    { rewrite Hcs. now apply lookup_extend. }
    unfold bind at 1 2. rewrite Hp.
    rewrite (modifyRatings_ok r _ _ w2 Hr2).
    eexists _, (set_pots pots' (set_ovrs ovrs' v)). split; [reflexivity|].
    split.
    { cbn [heap]. apply list_lookup_insert_eq.
      now apply lookup_lt_Some in Hr2. }
    cbn. repeat split; auto. discriminate.
Qed.

(** X4: in the multi-position branch, when POSITIONS has no code other than
    KR and PR (the empty list included), develop throws "Should never
    happen", and the throw comes after the assignment of ratings.ovrs: the
    snapshot at the throw already carries the new overall of every code,
    while its ovr, pot and pos are still those the season loop left. *)
Theorem develop_without_eligible_position_throws_late
    p r v0 years newPlayer cr skipPot w :
  SPORT <> basketball ->
  last (p_ratings p) = Some r ->
  heap w !! r = Some v0 ->
  (forall q, q ∈ POSITIONS -> q = "KR" \/ q = "PR") ->
  let age0 := season v0 - born_year p in
  let ages := loop_ages (Z.to_nat years) age0 (newPlayer || (1 <? years)) in
  let v1 := (seasons_val SPORT cr ages (v0, weight p, rng w)).1.1 in
  exists w' v',
    develop SPORT p years newPlayer cr skipPot w
    = (Throw ShouldNeverHappen, w')
    /\ heap w' !! r = Some v'
    /\ (forall k, ovrs v' !! k
                  = if decide (k ∈ POSITIONS)
                    then Some (player_ovr v1 (Some k)) else None)
    /\ ovr v' = ovr v1 /\ pot v' = pot v1 /\ pos v' = pos v1.
Proof.
  intros Hs Hlast Hr Hall age0 ages v1. unfold develop. rewrite Hlast.
  rewrite (bind_ok _ _ _ _ _ (readRatings_ok _ _ _ Hr)).
  destruct w as [g h]. cbn [rng heap] in *.
  pose proof (season_loop_ok SPORT (Z.to_nat years) r v0 years newPlayer cr
                (season v0 - born_year p) (weight p) g h Hr) as Hloop.
  cbv zeta in Hloop. fold age0 in Hloop. fold ages in Hloop.
  unfold v1. fold age0.
  destruct (seasons_val SPORT cr ages (v0, weight p, g)) as [[x1 wt1] g1].
  rewrite (bind_ok _ _ _ _ _ Hloop). cbn [fst].
  assert (Hr1 : heap {| rng := g1; heap := <[r := x1]> h |} !! r = Some x1).
  { apply list_lookup_insert_eq. now apply lookup_lt_Some in Hr. }
  destruct (finalize_without_eligible p r x1 (List.last ages age0) skipPot
              _ Hs Hr1 Hall)
    as (w' & v' & Hfin & Hr' & Hmap & _ & Ho & Hp & Hps).
  rewrite (bind_throw _ _ _ _ _ Hfin).
  exists w', v'. auto 10.
Qed.

(** *** The player record after the call *)

Lemma develop_player p years newPlayer cr skipPot w p' w' :
  develop SPORT p years newPlayer cr skipPot w = (Ok p', w') ->
  exists r v',
    last (p_ratings p) = Some r /\ heap w' !! r = Some v'
    /\ p' = {| born_loc := born_loc p;
               born_year := if newPlayer then born_year p - years
                            else born_year p;
               draft :=
                 if tid p =? PLAYER_UNDRAFTED then
                   {| draft_ovr := ovr v';
                      draft_pot := if skipPot then draft_pot (draft p)
                                   else pot v';
                      draft_skills := skills v' |}
                 else draft p;
               p_pos := p_pos p;
               p_ratings := p_ratings p;
               tid := tid p;
               weight := weight p' |}.
Proof.
  intros Hd. pose proof Hd as Hd0. unfold develop in Hd.
  destruct (last (p_ratings p)) as [r|] eqn:Hlast; [|discriminate Hd].
  unfold bind at 1 in Hd.
  destruct (readRatings r w) as [[x0|e0] wa]; [|discriminate Hd].
  unfold bind at 1 in Hd.
  destruct (season_loop SPORT _ r years newPlayer cr _ wa)
    as [[[a wt]|e1] wb]; [|discriminate Hd].
  unfold bind at 1 in Hd.
  destruct (finalize SPORT p r a skipPot wb) as [[[]|e2] wc];
    [|discriminate Hd].
  unfold bind at 1 in Hd.
  destruct (modifyRatings r _ wc) as [[[]|e3] wd]; [|discriminate Hd].
  unfold bind at 1 in Hd. unfold readRatings at 1 in Hd.
  destruct (heap wd !! r) as [v'|] eqn:Hr'; [|discriminate Hd].
  unfold ret in Hd. inversion Hd; subst p' w'. cbn [weight].
  exists r, v'. auto.
Qed.

(** X5: the draft record follows the snapshot only while the player is
    undrafted: for tid = PLAYER.UNDRAFTED it receives the stored overall and
    skills, and the stored potential unless skipPot (then its potential is
    kept); for any other tid it is left as it was.  The team, the position
    override, the birth place and the list of rows are never changed. *)
Theorem develop_syncs_draft_only_while_undrafted
    p years newPlayer cr skipPot w p' w' :
  develop SPORT p years newPlayer cr skipPot w = (Ok p', w') ->
  exists r v',
    last (p_ratings p) = Some r /\ heap w' !! r = Some v'
    /\ (tid p <> PLAYER_UNDRAFTED -> draft p' = draft p)
    /\ (tid p = PLAYER_UNDRAFTED ->
        draft_ovr (draft p') = ovr v'
        /\ draft_skills (draft p') = skills v'
        /\ draft_pot (draft p')
           = if skipPot then draft_pot (draft p) else pot v')
    /\ tid p' = tid p /\ p_pos p' = p_pos p /\ born_loc p' = born_loc p
    /\ p_ratings p' = p_ratings p.
Proof.
  intros Hd. destruct (develop_player _ _ _ _ _ _ _ _ Hd)
    as (r & v' & Hlast & Hr' & Hp).
  exists r, v'. split; [exact Hlast|]. split; [exact Hr'|].
  rewrite Hp. cbn. split; [|split].
  - intros Hne. apply Z.eqb_neq in Hne. now rewrite Hne.
  - intros ->. rewrite Z.eqb_refl. cbn. auto.
  - auto.
Qed.

(** *** Ages *)

Lemma last_loop_ages n age (bump : bool) :
  List.last (loop_ages n age bump) age
  = if bump then age + Z.of_nat n else age.
Proof.
  destruct bump.
  - rewrite loop_ages_bump. destruct n as [|n]; [simpl; lia|].
    rewrite seq_S, List.map_app. cbn [map]. rewrite List.last_last. lia.
  - rewrite loop_ages_keep. induction n as [|n IH]; [reflexivity|].
    destruct n as [|n]; [reflexivity|]. exact IH.
Qed.


(** X7: a player who is 29 or older on entry gets a potential equal to the
    overall: with skipPot false, develop stores pot = ovr, and in the
    multi-position branch the potential of every position code equals the
    overall of that code. *)
Theorem develop_veteran_potential_is_overall
    p r v0 years newPlayer cr w p' w' :
  EmptyString ∉ POSITIONS ->
  last (p_ratings p) = Some r ->
  heap w !! r = Some v0 ->
  29 <= season v0 - born_year p ->
  develop SPORT p years newPlayer cr false w = (Ok p', w') ->
  exists v',
    heap w' !! r = Some v' /\ pot v' = ovr v'
    /\ (SPORT <> basketball ->
        forall k, k ∈ POSITIONS ->
          exists o, ovrs v' !! k = Some o /\ pots v' !! k = Some (Num o)).
Proof.
  intros Hne Hlast Hr0 Hage Hd.
  destruct (develop_inv SPORT _ _ _ _ _ _ _ _ Hd)
    as (r' & v0' & v1 & wt1 & g1 & w2 & v2 & Hlast' & Hr0' & Hrest).
  rewrite Hlast in Hlast'. inversion Hlast'; subst r'. clear Hlast'.
  rewrite Hr0 in Hr0'. inversion Hr0'; subst v0'. clear Hr0'.
  cbv zeta in Hrest. destruct Hrest as (_ & Hfin & Hr2 & Hr' & _).
  rewrite last_loop_ages in Hfin.
  set (a := if newPlayer || (1 <? years)
            then season v0 - born_year p + Z.of_nat (Z.to_nat years)
            else season v0 - born_year p) in *.
  assert (Ha : 29 <= a) by (unfold a; destruct (newPlayer || (1 <? years)); lia).
  assert (Hr1 : heap {| rng := g1; heap := <[r := v1]> (heap w) |} !! r
                = Some v1).
  { apply list_lookup_insert_eq. now apply lookup_lt_Some in Hr0. }
  exists (set_skills (skills_of v2) v2). split; [exact Hr'|].
  cbn [ovr pot ovrs pots set_skills].
  destruct (decide (SPORT = basketball)) as [Hs|Hs].
  - destruct (finalize_basketball SPORT _ _ _ _ _ _ _ Hs Hr1 Hfin)
      as (v2' & Hv2' & Hov & (wa & wb & Hwa & Hb) & _).
    rewrite Hr2 in Hv2'. inversion Hv2'; subst v2'. clear Hv2'.
    rewrite (bootstrapPot_old SPORT r _ a None wa Ha Hwa) in Hb.
    inversion Hb. split; [now rewrite Hov|contradiction].
  - destruct (finalize_positions_stored SPORT _ _ _ _ _ _ _ Hs Hr1 Hfin)
      as (v2' & sel & Hv2' & Hmap & _ & (pre & post & Hpos & _) & Hov & Hpot
          & _ & _ & Hin).
    rewrite Hr2 in Hv2'. inversion Hv2'; subst v2'. clear Hv2'.
    assert (Hall : forall k, k ∈ POSITIONS ->
              pots v2 !! k = Some (Num (player_ovr v1 (Some k)))).
    { intros k Hk. destruct (Hin k Hk) as (val & Hval & wa & wb & Hwa & Hb).
      rewrite (bootstrapPot_old SPORT r _ a (Some k) wa Ha Hwa) in Hb.
      rewrite current_ovr_nonempty in Hb by (intros ->; contradiction).
      injection Hb as <- _. rewrite Hval. f_equal.
      unfold ovrs_at. cbn [ovrs set_ovrs]. rewrite Hmap.
      now rewrite decide_True. }
    split.
    + rewrite Hov, Hpot. unfold pots_at. rewrite Hall; [reflexivity|].
      rewrite Hpos. apply elem_of_app. right. now left.
    + intros _ k Hk. exists (player_ovr v1 (Some k)).
      rewrite Hmap, decide_True by exact Hk. split; [reflexivity|].
      now apply Hall.
Qed.

(** *** Weight over several seasons *)

Lemma adjustWeight_step (old new : Z) :
  Z.abs (adjustWeight old new - old) <= 10.
Proof.
  unfold adjustWeight.
  destruct (Z.ltb_spec 10 (new - old)); [lia|].
  destruct (Z.ltb_spec (new - old) (-10)); lia.
Qed.

Lemma seasons_val_weight cr ages : forall v wt g,
  let wt' := (seasons_val SPORT cr ages (v, wt, g)).1.2 in
  Z.abs (wt' - wt) <= 10 * Z.of_nat (length ages)
  /\ (SPORT <> football -> wt' = wt).
Proof.
  induction ages as [|a ages IH]; intros v wt g; cbn zeta.
  - cbn. split; [lia|reflexivity].
  - unfold seasons_val. cbn [fold_left]. fold (seasons_val SPORT cr ages).
    assert (Hstep : Z.abs ((season_val SPORT cr (v, wt, g) a).1.2 - wt) <= 10
                    /\ (SPORT <> football ->
                        (season_val SPORT cr (v, wt, g) a).1.2 = wt)).
    { unfold season_val.
      destruct (developSeason v a (Some cr) g) as [x g1].
      destruct SPORT; cbn [fst snd]; try (split; [lia|reflexivity]).
      destruct (genWeight (hgt x) (stre x) g1) as [nw g2]. cbn [fst snd].
      split; [apply adjustWeight_step|]. intros Hf. contradiction. }
    destruct (season_val SPORT cr (v, wt, g) a) as [[v1 wt1] g1].
    cbn [fst snd] in Hstep. destruct Hstep as [Hs1 Hs2].
    destruct (IH v1 wt1 g1) as [H1 H2]. cbv zeta in H1, H2.
    unfold seasons_val in H1, H2.
    set (wt2 := (fold_left (season_val SPORT cr) ages (v1, wt1, g1)).1.2)
      in *.
    rewrite length_cons, Nat2Z.inj_succ. split; [lia|].
    intros Hf. rewrite (H2 Hf). now apply Hs2.
Qed.

Lemma length_loop_ages n : forall a (b : bool),
  length (loop_ages n a b) = n.
Proof.
  induction n as [|n IH]; intros a b; [reflexivity|].
  cbn [loop_ages length]. now rewrite IH.
Qed.

(** X8: over a whole call the weight drifts by at most 10 units per season
    developed: for football |p.weight after - p.weight before| <= 10 * years,
    whatever candidates genWeight produces, and for every other sport the
    weight is unchanged. *)
Theorem develop_weight_drift_is_bounded
    p years newPlayer cr skipPot w p' w' :
  develop SPORT p years newPlayer cr skipPot w = (Ok p', w') ->
  Z.abs (weight p' - weight p) <= 10 * Z.max 0 years
  /\ (SPORT <> football -> weight p' = weight p).
Proof.
  intros Hd.
  destruct (develop_inv SPORT _ _ _ _ _ _ _ _ Hd)
    as (r & v0 & v1 & wt1 & g1 & w2 & v2 & Hlast & Hr0 & Hrest).
  cbv zeta in Hrest. destruct Hrest as (Hseasons & _ & _ & _ & Hwt & _).
  match type of Hseasons with
  | seasons_val _ _ ?ages _ = _ =>
      pose proof (seasons_val_weight cr ages v0 (weight p) (rng w)) as Hw;
      assert (Hlen : length ages = Z.to_nat years)
  end.
  { apply length_loop_ages. }
  cbv zeta in Hw. rewrite Hseasons, Hlen in Hw. cbn [fst snd] in Hw.
  rewrite Hwt. destruct Hw as [H1 H2]. split; [lia|exact H2].
Qed.

(** *** The percentile of the simulation *)

Lemma sorted_lookup_le (l : list num) :
  StronglySorted num_le l ->
  forall i j x y, (i <= j)%nat -> l !! i = Some x -> l !! j = Some y ->
                  num_le x y.
Proof.
  induction 1 as [|a l Hsorted IH Hall]; intros i j x y Hij Hi Hj.
  - discriminate Hi.
  - destruct i as [|i], j as [|j]; try lia; cbn in Hi, Hj.
    + injection Hi as <-. injection Hj as <-.
      destruct (num_le_total a a); assumption.
    + injection Hi as <-. rewrite Forall_forall in Hall. apply Hall.
      now apply list_elem_of_lookup_2 in Hj.
    + apply (IH i j); auto; lia.
Qed.

Lemma length_filter_Forall (P : num -> Prop) `{!forall x, Decision (P x)}
    (l : list num) :
  Forall P l -> length (filter P l) = length l.
Proof.
  induction 1 as [|x l Hx Hl IH]; [reflexivity|].
  rewrite filter_cons_True by exact Hx. cbn. now rewrite IH.
Qed.

Lemma percentile_counts (ms : list num) (val : num) :
  length ms = 20%nat ->
  orderBy ms !! 15%nat = Some val ->
  (16 <= length (filter (fun m => num_le m val) ms))%nat
  /\ (5 <= length (filter (fun m => num_le val m) ms))%nat.
Proof.
  intros Hlen Hval.
  pose proof (orderBy_sorted ms) as Hsorted.
  pose proof (orderBy_length ms) as Hl. rewrite Hlen in Hl.
  assert (Hperm : forall (P : num -> Prop) `{!forall x, Decision (P x)},
            length (filter P ms) = length (filter P (orderBy ms))).
  { intros P HP. apply Permutation_length.
    now rewrite (orderBy_perm ms). }
  split.
  - rewrite Hperm. rewrite <- (take_drop 16 (orderBy ms)) at 1.
    rewrite filter_app, length_app.
    rewrite length_filter_Forall.
    + rewrite length_take. lia.
    + apply Forall_forall. intros x Hx.
      apply list_elem_of_lookup in Hx as [i Hi].
      pose proof (lookup_lt_Some _ _ _ Hi) as Hlt.
      rewrite length_take in Hlt. rewrite lookup_take_lt in Hi by lia.
      apply (sorted_lookup_le _ Hsorted i 15 x val); auto; lia.
  - rewrite Hperm. rewrite <- (take_drop 15 (orderBy ms)) at 1.
    rewrite filter_app, length_app.
    rewrite (length_filter_Forall _ (drop 15 (orderBy ms))).
    + rewrite length_drop. lia.
    + apply Forall_forall. intros x Hx.
      apply list_elem_of_lookup in Hx as [i Hi].
      rewrite lookup_drop in Hi.
      apply (sorted_lookup_le _ Hsorted 15 (15 + i) val x); auto; lia.
Qed.

Lemma simulation_index_15 r v age pos w :
  potEstimator SPORT = None ->
  age < 29 ->
  heap w !! r = Some v ->
  exists maxOvrs copies g' val,
    trials_val 20 v age pos (rng w) = (maxOvrs, copies, g')
    /\ length maxOvrs = 20%nat
    /\ orderBy maxOvrs !! 15%nat = Some val
    /\ bootstrapPot SPORT r age pos w
       = (Ok val, {| rng := g'; heap := heap w ++ copies |}).
Proof.
  intros He Ha Hr.
  pose proof (bootstrapPot_simulated SPORT r v age pos w He Ha Hr) as Hb.
  change (Z.to_nat NUM_SIMULATIONS) with 20%nat in Hb.
  pose proof (trials_val_length 20 v age pos (rng w)) as [Hl1 _].
  destruct (trials_val 20 v age pos (rng w)) as [[ms cs] g'] eqn:Htv.
  cbn [fst snd] in Hl1.
  assert (Hlt : (15 < length (orderBy ms))%nat)
    by (rewrite orderBy_length, Hl1; lia).
  destruct (lookup_lt_is_Some_2 _ _ Hlt) as [val Hval].
  exists ms, cs, g', val. repeat split; auto.
  rewrite Hb. unfold at_index. rewrite percentile_index_15. now rewrite Hval.
Qed.

(** X9: what the 75th percentile means for the value the simulation branch
    returns: it is the maximum reached in one of the 20 trials, at least 16
    of the 20 trials ended with a maximum no higher than it, and at least 5
    with a maximum no lower. *)
Theorem bootstrapPot_percentile_counts r v age pos w :
  potEstimator SPORT = None ->
  age < 29 ->
  heap w !! r = Some v ->
  exists maxOvrs val,
    (trials_val 20 v age pos (rng w)).1.1 = maxOvrs
    /\ (bootstrapPot SPORT r age pos w).1 = Ok val
    /\ val ∈ maxOvrs
    /\ (16 <= length (filter (fun m => num_le m val) maxOvrs))%nat
    /\ (5 <= length (filter (fun m => num_le val m) maxOvrs))%nat.
Proof.
  intros He Ha Hr.
  destruct (simulation_index_15 r v age pos w
              He Ha Hr) as (ms & cs & g' & val & Htv & Hlen & Hval & Hb).
  exists ms, val. rewrite Htv, Hb. cbn [fst].
  split; [reflexivity|]. split; [reflexivity|]. split.
  - apply list_elem_of_lookup_2 in Hval. now rewrite (orderBy_perm ms) in Hval.
  - now apply percentile_counts.
Qed.

(** *** A snapshot without the overall of the position *)


(** *** The positions of the regression table *)

End Further.


(** ** The regression estimate *)

Lemma coeffsByPos_slopes p c :
  coeffsByPos !! p = Some c ->
  (0 < c_ovr c + 28 * interaction c)%Q
  /\ (interaction c < 0)%Q /\ (c_age c < 0)%Q.
Proof.
  intros Hc. unfold coeffsByPos in Hc.
  apply elem_of_list_to_map_2 in Hc.
  repeat (apply elem_of_cons in Hc as [Hc|Hc];
          [injection Hc as -> ->; repeat split; reflexivity|]).
  now apply elem_of_nil in Hc.
Qed.

Lemma estimate_increasing (i a b x A O1 O2 : Q) :
  (0 < b + 28 * x -> x < 0 -> A <= 28 -> O1 < O2 ->
   i + a * A + b * O1 + x * A * O1 < i + a * A + b * O2 + x * A * O2)%Q.
Proof.
  intros H1 H2 H3 H4.
  assert (H5 : (0 <= (0 - x) * (28 - A))%Q)
    by (apply Qmult_le_0_compat; lra).
  assert (H6 : (0 < (b + x * A) * (O2 - O1))%Q)
    by (apply Qmult_lt_0_compat; lra).
  lra.
Qed.

Lemma estimate_decreasing (i a b x A1 A2 O : Q) :
  (a < 0 -> x < 0 -> 0 <= O -> A1 < A2 ->
   i + a * A2 + b * O + x * A2 * O < i + a * A1 + b * O + x * A1 * O)%Q.
Proof.
  intros H1 H2 H3 H4.
  assert (H5 : (0 <= ((0 - x) * O) * (A2 - A1))%Q).
  { apply Qmult_le_0_compat; [apply Qmult_le_0_compat|]; lra. }
  assert (H6 : (0 < (0 - a) * (A2 - A1))%Q)
    by (apply Qmult_lt_0_compat; lra).
  lra.
Qed.

(** X11: for every position of the coefficient table and every age up to
    28, the regression estimate (before the jitter, in exact arithmetic) is
    strictly increasing in the current overall: a player with a higher
    overall at the same age and position never gets a lower estimate. *)
Theorem potEstimator_increases_with_overall p age o1 o2 :
  is_Some (coeffsByPos !! p) ->
  age <= 28 ->
  o1 < o2 ->
  exists q1 q2,
    football_potEstimator (Num o1) age p = inr (Some q1)
    /\ football_potEstimator (Num o2) age p = inr (Some q2)
    /\ (q1 < q2)%Q.
Proof.
  intros [c Hc] Hage Ho. unfold football_potEstimator. rewrite Hc.
  eexists _, _. split; [reflexivity|]. split; [reflexivity|].
  destruct (coeffsByPos_slopes p c Hc) as (H1 & H2 & _).
  apply estimate_increasing; auto.
  - change 28%Q with (inject_Z 28). now rewrite <- Zle_Qle.
  - now rewrite <- Zlt_Qlt.
Qed.

(** X12: for every position of the coefficient table and every overall that
    is not negative, the regression estimate (before the jitter, in exact
    arithmetic) is strictly decreasing in the age: of two players with the
    same overall the older one gets the lower estimate. *)
Theorem potEstimator_decreases_with_age p o age1 age2 :
  is_Some (coeffsByPos !! p) ->
  0 <= o ->
  age1 < age2 ->
  exists q1 q2,
    football_potEstimator (Num o) age1 p = inr (Some q1)
    /\ football_potEstimator (Num o) age2 p = inr (Some q2)
    /\ (q2 < q1)%Q.
Proof.
  intros [c Hc] Ho Hage. unfold football_potEstimator. rewrite Hc.
  eexists _, _. split; [reflexivity|]. split; [reflexivity|].
  destruct (coeffsByPos_slopes p c Hc) as (_ & H2 & H3).
  apply estimate_decreasing; auto.
  - change 0%Q with (inject_Z 0). now rewrite <- Zle_Qle.
  - now rewrite <- Zlt_Qlt.
Qed.


(** ** The regression branch as a partial function *)

Section Regression.

Context {G Attrs : Type} {Ov : Overrides G Attrs}.


End Regression.

(** ** When develop returns, and what skipPot skips *)

Section Returns.

Context {G Attrs : Type} {Ov : Overrides G Attrs}.
Variable SPORT : Sport.



(** X17: with skipPot true develop recomputes no potential: the
    per-position potentials of the snapshot are those the season loop left,
    in the single-position branch so is ratings.pot, and in the
    multi-position branch ratings.pot is the entry that old mapping has for
    the newly selected position (undefined when it has none).  The draft
    record keeps its potential. *)
Theorem develop_skipPot_recomputes_no_potential
    (p : Player) years newPlayer cr (w : world G Attrs) p' w' :
  develop SPORT p years newPlayer cr true w = (Ok p', w') ->
  exists r v0 v',
    last (p_ratings p) = Some r /\ heap w !! r = Some v0
    /\ heap w' !! r = Some v'
    /\ let age0 := season v0 - born_year p in
       let ages := loop_ages (Z.to_nat years) age0
                     (newPlayer || (1 <? years)) in
       let v1 := (seasons_val SPORT cr ages (v0, weight p, rng w)).1.1 in
       pots v' = pots v1
       /\ (SPORT = basketball -> pot v' = pot v1)
       /\ (SPORT <> basketball ->
           exists sel,
             sel ∈ POSITIONS /\ ovr v' = Num (player_ovr v1 (Some sel))
             /\ pot v' = match pots v1 !! sel with
                         | Some x => x
                         | None => Undefined
                         end)
       /\ draft_pot (draft p') = draft_pot (draft p).
Proof.
  intros Hd.
  destruct (develop_inv SPORT _ _ _ _ _ _ _ _ Hd)
    as (r & v0 & v1 & wt1 & g1 & w2 & v2 & Hlast & Hr0 & Hrest).
  cbv zeta in Hrest.
  destruct Hrest as (Hseasons & Hfin & Hr2 & Hr' & _ & _ & Hdraft).
  exists r, v0, (set_skills (skills_of v2) v2).
  split; [exact Hlast|]. split; [exact Hr0|]. split; [exact Hr'|].
  cbv zeta. rewrite Hseasons. cbn [fst snd pots pot ovr set_skills].
  assert (Hr1 : heap {| rng := g1; heap := <[r := v1]> (heap w) |} !! r
                = Some v1).
  { apply list_lookup_insert_eq. now apply lookup_lt_Some in Hr0. }
  assert (Hdp : draft_pot (draft p') = draft_pot (draft p)).
  { rewrite Hdraft. now destruct (tid p =? PLAYER_UNDRAFTED). }
  destruct (decide (SPORT = basketball)) as [Hs|Hs].
  - destruct (finalize_basketball SPORT _ _ _ _ _ _ _ Hs Hr1 Hfin)
      as (v2' & Hv2' & _ & Hpot & _ & Hpots & _).
    rewrite Hr2 in Hv2'. inversion Hv2'; subst v2'.
    split; [exact Hpots|]. split; [auto|]. split; [contradiction|exact Hdp].
  - destruct (finalize_positions_stored SPORT _ _ _ _ _ _ _ Hs Hr1 Hfin)
      as (v2' & sel & Hv2' & _ & _ & (pre & post & Hpos & _) & Hov & Hpot
          & _ & Hpots).
    rewrite Hr2 in Hv2'. inversion Hv2'; subst v2'.
    split; [exact Hpots|]. split; [contradiction|]. split; [|exact Hdp].
    intros _. exists sel.
    split; [rewrite Hpos; apply elem_of_app; right; now left|].
    split; [exact Hov|]. rewrite Hpot. unfold pots_at. now rewrite Hpots.
Qed.

End Returns.

(** ** updateMetaNameRegion *)

Section MetaProperties.

Context {Rest : Type}.

Implicit Types (leagues : gmap Z (League Rest)) (lid : Z).

(** X14: updateMetaNameRegion rejects exactly when the store has no league
    under the current league id, and then leaves the store as it was.
    Otherwise it resolves, and afterwards that league has the new name and
    region and its other fields as before, while every other league of the
    store is untouched; no league is added or removed. *)
Theorem updateMetaNameRegion_sets_one_league lid name region leagues :
  (leagues !! lid = None ->
   updateMetaNameRegion lid name region leagues
   = (NoLeagueFound lid, leagues))
  /\ (forall l, leagues !! lid = Some l ->
        exists leagues',
          updateMetaNameRegion lid name region leagues = (Resolved, leagues')
          /\ leagues' !! lid
             = Some {| teamName := name; teamRegion := region;
                       league_rest := league_rest l |}
          /\ (forall lid', lid' <> lid -> leagues' !! lid' = leagues !! lid')
          /\ dom leagues' = dom leagues).
Proof.
  unfold updateMetaNameRegion. split.
  - now intros ->.
  - intros l Hl. rewrite Hl. eexists. split; [reflexivity|].
    split; [apply lookup_insert_eq|]. split.
    + intros lid' Hne. now apply lookup_insert_ne.
    + rewrite dom_insert_L. apply subseteq_union_1_L.
      apply singleton_subseteq_l. apply elem_of_dom. eauto.
Qed.

(** X15: successive calls compose as assignments do: a second call for the
    same league overrides the first, so the store is the one a single call
    with the second name and region gives; calls for two different leagues
    give the same store in either order. *)
Theorem updateMetaNameRegion_last_call_wins
    lid lid' name1 region1 name2 region2 leagues :
  is_Some (leagues !! lid) ->
  (updateMetaNameRegion lid name2 region2
     (updateMetaNameRegion lid name1 region1 leagues).2
   = updateMetaNameRegion lid name2 region2 leagues)
  /\ (lid <> lid' ->
      (updateMetaNameRegion lid' name2 region2
         (updateMetaNameRegion lid name1 region1 leagues).2).2
      = (updateMetaNameRegion lid name1 region1
           (updateMetaNameRegion lid' name2 region2 leagues).2).2).
Proof.
  intros [l Hl]. unfold updateMetaNameRegion. rewrite Hl. cbn [snd]. split.
  - rewrite lookup_insert_eq. cbn. now rewrite insert_insert_eq.
  - intros Hne. rewrite lookup_insert_ne by exact Hne.
    destruct (leagues !! lid') as [l'|] eqn:Hl'; cbn [snd].
    + rewrite lookup_insert_ne by auto. rewrite Hl. cbn [snd].
      now apply insert_insert_ne.
    + now rewrite Hl.
Qed.

End MetaProperties.

(** ** Further concrete runs *)

Lemma special_teams_all_banned q :
  q ∈ POSITIONS (Overrides := History.special_teams) ->
  q = "KR" \/ q = "PR".
Proof.
  intros H. apply elem_of_cons in H as [H|H]; [now left|].
  apply elem_of_cons in H as [H|H]; [now right|]. now apply elem_of_nil in H.
Qed.

(** The earlier row of the two-row player is as it was after a season. *)
Lemma develop_touches_only_the_last_row_witness :
  heap (develop (Ov := Demo.strategy) basketball History.player 1 false 15.5
          false History.w2).2 !! 0%nat
  = Some History.rookie_row.
Proof.
  exact (develop_touches_only_the_last_row (Ov := Demo.strategy) basketball
           History.player 1 false 15.5 false History.w2 0%nat
           ltac:(cbn; lia) ltac:(discriminate)).
Defined.

(** With only KR and PR to choose from, the error is the selection's. *)
Lemma develop_throws_only_two_errors_witness :
  (ShouldNeverHappen = ShouldNeverHappen /\ football <> basketball
   /\ forall q, q ∈ POSITIONS (Overrides := History.special_teams) ->
                q = "KR" \/ q = "PR")
  \/ (exists q, ShouldNeverHappen = InvalidPosition q /\ football = football
                /\ false = false
                /\ q ∈ POSITIONS (Overrides := History.special_teams)
                /\ coeffsByPos !! q = None).
Proof.
  apply (develop_throws_only_two_errors (Ov := History.special_teams)
           football (Demo.player None) 1 false 15.5 false Demo.w0 0%nat
           Demo.snapshot ShouldNeverHappen eq_refl eq_refl).
  vm_compute. reflexivity.
Defined.

(** Zero seasons: attributes and weight as on entry. *)
Lemma develop_assigns_only_derived_fields_witness :
  exists p' w' v',
    develop (Ov := Demo.strategy) football (Demo.player None) 0 false 15.5
      true Demo.w0 = (Ok p', w')
    /\ heap w' !! 0%nat = Some v'
    /\ attrs v' = 50 /\ weight p' = 200.
Proof.
  destruct (develop_returns (Ov := Demo.strategy) football (Demo.player None)
              0%nat Demo.snapshot 0 false 15.5 true Demo.w0 eq_refl eq_refl
              (demo_has_eligible football)
              (fun _ _ => demo_codes_in_table)) as (p' & w' & Hd).
  destruct (develop_assigns_only_derived_fields (Ov := Demo.strategy)
              football _ _ _ _ _ _ _ _ Hd)
    as (r & v0 & v' & Hlast & Hr0 & Hr' & _ & _ & _ & Hattrs & Hzero).
  injection Hlast as <-. injection Hr0 as <-.
  destruct (Hzero ltac:(lia)) as (Hv1 & Hwt & _).
  exists p', w', v'. split; [exact Hd|]. split; [exact Hr'|].
  rewrite Hv1 in Hattrs. split; [exact Hattrs|exact Hwt].
Defined.

(** The overall of KR is stored although the call throws. *)
Lemma develop_without_eligible_position_witness :
  exists w' v',
    develop (Ov := History.special_teams) football (Demo.player None) 1 false
      15.5 false Demo.w0 = (Throw ShouldNeverHappen, w')
    /\ heap w' !! 0%nat = Some v'
    /\ is_Some (ovrs v' !! "KR").
Proof.
  destruct (develop_without_eligible_position_throws_late
              (Ov := History.special_teams) football (Demo.player None) 0%nat
              Demo.snapshot 1 false 15.5 false Demo.w0
              ltac:(discriminate) eq_refl eq_refl special_teams_all_banned)
    as (w' & v' & Hd & Hr & Hmap & _).
  exists w', v'. split; [exact Hd|]. split; [exact Hr|].
  rewrite Hmap. rewrite decide_True; [eauto|]. now left.
Defined.

(** A drafted player keeps his draft record. *)
Lemma develop_syncs_draft_witness :
  exists p' w',
    develop (Ov := Demo.strategy) basketball History.player 1 false 15.5
      false History.w2 = (Ok p', w')
    /\ draft p' = draft History.player.
Proof.
  destruct (develop_returns (Ov := Demo.strategy) basketball History.player
              1%nat Demo.snapshot 1 false 15.5 false History.w2 eq_refl
              eq_refl (demo_has_eligible basketball)
              (fun _ _ => demo_codes_in_table)) as (p' & w' & Hd).
  destruct (develop_syncs_draft_only_while_undrafted (Ov := Demo.strategy)
              basketball _ _ _ _ _ _ _ _ Hd) as (r & v' & _ & _ & Hkeep & _).
  exists p', w'. split; [exact Hd|]. apply Hkeep. discriminate.
Defined.


(** The 30-year-old gets potential equal to overall. *)
Lemma develop_veteran_witness :
  exists p' w' v',
    develop (Ov := Demo.strategy) football History.veteran 1 false 15.5
      false Demo.w0 = (Ok p', w')
    /\ heap w' !! 0%nat = Some v' /\ pot v' = ovr v'.
Proof.
  destruct (develop_returns (Ov := Demo.strategy) football History.veteran
              0%nat Demo.snapshot 1 false 15.5 false Demo.w0 eq_refl eq_refl
              (demo_has_eligible football)
              (fun _ _ => demo_codes_in_table)) as (p' & w' & Hd).
  destruct (develop_veteran_potential_is_overall (Ov := Demo.strategy)
              football History.veteran 0%nat Demo.snapshot 1 false 15.5
              Demo.w0 p' w' demo_codes_nonempty eq_refl eq_refl
              ltac:(cbn; lia) Hd) as (v' & Hr & Hpot & _).
  exists p', w', v'. auto.
Defined.

(** Three football seasons move the weight by at most 30. *)
Lemma develop_weight_drift_witness :
  exists p' w',
    develop (Ov := Demo.strategy) football (Demo.player None) 3 true 15.5
      true Demo.w0 = (Ok p', w')
    /\ Z.abs (weight p' - 200) <= 30.
Proof.
  destruct (develop_returns (Ov := Demo.strategy) football (Demo.player None)
              0%nat Demo.snapshot 3 true 15.5 true Demo.w0 eq_refl eq_refl
              (demo_has_eligible football)
              (fun _ _ => demo_codes_in_table)) as (p' & w' & Hd).
  destruct (develop_weight_drift_is_bounded (Ov := Demo.strategy) football
              _ _ _ _ _ _ _ _ Hd) as [Hw _].
  exists p', w'. split; [exact Hd|exact Hw].
Defined.

(** The twenty trials of the example snapshot at age 27. *)
Lemma bootstrapPot_percentile_counts_witness :
  exists maxOvrs val,
    (trials_val (Ov := Demo.strategy) 20 Demo.snapshot 27 None 0%nat).1.1
    = maxOvrs
    /\ (bootstrapPot (Ov := Demo.strategy) basketball 0%nat 27 None
          Demo.w0).1 = Ok val
    /\ val ∈ maxOvrs
    /\ (16 <= length (filter (fun m => num_le m val) maxOvrs))%nat
    /\ (5 <= length (filter (fun m => num_le val m) maxOvrs))%nat.
Proof.
  exact (bootstrapPot_percentile_counts (Ov := Demo.strategy) basketball
           0%nat Demo.snapshot 27 None Demo.w0 eq_refl ltac:(lia) eq_refl).
Defined.


(** A quarterback of 25 with overall 50 against one with overall 51. *)
Lemma potEstimator_increases_witness :
  exists q1 q2,
    football_potEstimator (Num 50) 25 "QB" = inr (Some q1)
    /\ football_potEstimator (Num 51) 25 "QB" = inr (Some q2)
    /\ (q1 < q2)%Q.
Proof.
  apply (potEstimator_increases_with_overall "QB" 25 50 51);
    [eexists; reflexivity|lia|lia].
Defined.

(** A quarterback with overall 50 at 24 against one at 25. *)
Lemma potEstimator_decreases_witness :
  exists q1 q2,
    football_potEstimator (Num 50) 24 "QB" = inr (Some q1)
    /\ football_potEstimator (Num 50) 25 "QB" = inr (Some q2)
    /\ (q2 < q1)%Q.
Proof.
  apply (potEstimator_decreases_with_age "QB" 50 24 25);
    [eexists; reflexivity|lia|lia].
Defined.


(** League 1 is renamed, league 2 is not; league 9 does not exist. *)
Lemma updateMetaNameRegion_witness :
  (exists leagues',
     updateMetaNameRegion 1 "Kings" "Sacramento" History.leagues
     = (Resolved, leagues')
     /\ leagues' !! 1
        = Some {| teamName := "Kings"; teamRegion := "Sacramento";
                  league_rest := 3%nat |}
     /\ leagues' !! 2 = History.leagues !! 2)
  /\ updateMetaNameRegion 9 "Kings" "Sacramento" History.leagues
     = (NoLeagueFound 9, History.leagues).
Proof.
  split.
  - destruct (proj2 (updateMetaNameRegion_sets_one_league 1 "Kings"
                       "Sacramento" History.leagues) _ eq_refl)
      as (leagues' & Hu & Hl & Hother & _).
    exists leagues'. split; [exact Hu|]. split; [exact Hl|].
    apply Hother. discriminate.
  - apply (proj1 (updateMetaNameRegion_sets_one_league 9 "Kings"
                    "Sacramento" History.leagues)). reflexivity.
Defined.

(** Renaming league 1 twice is renaming it once with the last name. *)
Lemma updateMetaNameRegion_last_call_witness :
  updateMetaNameRegion 1 "Kings" "Sacramento"
    (updateMetaNameRegion 1 "Jazz" "Utah" History.leagues).2
  = updateMetaNameRegion 1 "Kings" "Sacramento" History.leagues.
Proof.
  apply (proj1 (updateMetaNameRegion_last_call_wins 1 2 "Jazz" "Utah"
                  "Kings" "Sacramento" History.leagues
                  ltac:(eexists; reflexivity))).
Defined.


(** With skipPot the per-position potentials are those before the call. *)
Lemma develop_skipPot_witness :
  exists p' w' v',
    develop (Ov := Demo.strategy) football (Demo.player None) 1 false 15.5
      true Demo.w0 = (Ok p', w')
    /\ heap w' !! 0%nat = Some v'
    /\ pots v' !! "QB" = Some (Num 55)
    /\ draft_pot (draft p') = Num 55.
Proof.
  destruct (develop_returns (Ov := Demo.strategy) football (Demo.player None)
              0%nat Demo.snapshot 1 false 15.5 true Demo.w0 eq_refl eq_refl
              (demo_has_eligible football)
              (fun _ _ => demo_codes_in_table)) as (p' & w' & Hd).
  destruct (develop_skipPot_recomputes_no_potential (Ov := Demo.strategy)
              football _ _ _ _ _ _ _ Hd)
    as (r & v0 & v' & Hlast & Hr0 & Hr' & Hpots & _ & _ & Hdraft).
  injection Hlast as <-. injection Hr0 as <-.
  exists p', w', v'. split; [exact Hd|]. split; [exact Hr'|].
  split; [rewrite Hpots; reflexivity|exact Hdraft].
Defined.
